(** * Mejiku: the colour-sudoku engine and its game component

    A shallow embedding of the TypeScript sources:
    - [types/game.ts]              : [Cell], [Grid], [Difficulty];
    - [lib/game-logic.ts]          : module [GameLogic], the module the component
                                     imports (counting solver, generator,
                                     [checkWin], [checkPlacement]);
    - the second game-logic file   : module [GameLogicB] (diagonal boxes filled
                                     first, uniqueness checked on deep copies);
    - [components/mejiku-game.tsx] : module [Component]; its earlier copy is
                                     module [ComponentEarlier].

    Grids are JavaScript arrays of arrays of cell objects, modelled as lists of
    lists with stdpp's lookup [!!] and [alter].  Every grid the program builds
    is 9 x 9; on such grids every index the code uses is in range.  Outside
    that shape JavaScript raises a TypeError on [grid[row][col].value]; the
    model reads [None] there and writes nothing, and the theorems are stated
    for 9 x 9 grids.

    In-place mutation is explicit state passing: a function that mutates its
    grid argument returns the grid as the call leaves it.  The recursive
    searches take their depth bound as fuel; 82 is enough for every 9 x 9 grid
    (lemma [searchDepth_enough]), so no search below ever runs out. *)

From Stdlib Require Import Arith ZArith Lia ZifyNat Bool.
From stdpp Require Import base option list.

Set Default Proof Using "Type".

(* ===================================================================== *)
(** * Part I: the program                                                *)
(* ===================================================================== *)

(** ** types/game.ts *)

(** [value : number | null], [isFixed : boolean].  Colour indices are the
    naturals 0..8; [None] is JavaScript's [null]. *)
Record Cell : Type := mkCell { value : option nat; isFixed : bool }.

#[global] Instance Cell_eq_dec : EqDecision Cell.
Proof. solve_decision. Defined.

Abbreviation Grid := (list (list Cell)).

Inductive Difficulty : Type := easy | medium | hard.

(** ** Reading and writing cells *)

(** [grid[row][col]] *)
Definition cellAt (g : Grid) (row col : nat) : option Cell :=
  match g !! row with
  | Some r => r !! col
  | None => None
  end.

(** [grid[row][col].value] *)
Definition valueAt (g : Grid) (row col : nat) : option nat :=
  match cellAt g row col with
  | Some c => value c
  | None => None
  end.

(** [grid[row][col].isFixed] *)
Definition fixedAt (g : Grid) (row col : nat) : bool :=
  match cellAt g row col with
  | Some c => isFixed c
  | None => false
  end.

(** [grid[row][col].value === num] *)
Definition holds (g : Grid) (row col num : nat) : bool :=
  match valueAt g row col with
  | Some v => v =? num
  | None => false
  end.

(** [grid[row][col].value === null] *)
Definition isEmptyAt (g : Grid) (row col : nat) : bool :=
  match valueAt g row col with
  | Some _ => false
  | None => true
  end.

Definition updCell (f : Cell -> Cell) (g : Grid) (row col : nat) : Grid :=
  alter (alter f col) row g.

(** [grid[row][col].value = v] *)
Definition setValue (g : Grid) (row col : nat) (v : option nat) : Grid :=
  updCell (fun c => mkCell v (isFixed c)) g row col.

(** [grid[row][col].isFixed = b] *)
Definition setFixed (g : Grid) (row col : nat) (b : bool) : Grid :=
  updCell (fun c => mkCell (value c) b) g row col.

(** ** The random source

    [Math.random()] is a stream of draws; [Math.floor(Math.random() * (i + 1))]
    is an index in [0..i], and every such index can come out.  The stream is
    a function from the number of the draw to a raw natural, reduced modulo
    [i + 1]; the state threaded through the program is the number of draws
    made so far. *)
Definition RandomSource : Type := nat -> nat.

Section Shuffle.
Variable rnd : RandomSource.

Definition randomIndex (k bound : nat) : nat := rnd k mod bound.

(** [[a[i], a[j]] = [a[j], a[i]]] *)
Definition swap {A} (l : list A) (i j : nat) : list A :=
  match l !! i, l !! j with
  | Some x, Some y => <[j := x]> (<[i := y]> l)
  | _, _ => l
  end.

(** [for (let i = a.length - 1; i > 0; i--) { j = floor(random() * (i + 1)); swap }],
    started at [i]. *)
Fixpoint shuffleFrom {A} (i : nat) (l : list A) (k : nat) : list A * nat :=
  match i with
  | 0 => (l, k)
  | S i' => shuffleFrom i' (swap l i (randomIndex k (S i))) (S k)
  end.

Definition shuffle {A} (l : list A) (k : nat) : list A * nat :=
  shuffleFrom (length l - 1) l k.
End Shuffle.

(** Search depth: a call of a solver fills one empty cell before it recurses,
    so 81 nested calls plus the final one is all a 9 x 9 grid can need.  The
    recursive functions take this bound as fuel and return [None] only when it
    runs out (which the theorems show never happens). *)
Definition searchDepth : nat := 82.

(** [createEmptyGrid()]: 9 rows of 9 fresh cells [{value: null, isFixed: false}]. *)
Definition createEmptyGrid : Grid :=
  replicate 9 (replicate 9 (mkCell None false)).

(** The 81 positions in row-major order, as the nested [for] loops visit them. *)
Definition rowMajor : list (nat * nat) :=
  r ← seq 0 9; (fun c => (r, c)) <$> seq 0 9.

(** Shared by both game-logic files: the first empty cell in row-major order. *)
Definition findEmptyCell (g : Grid) : option (nat * nat) :=
  find (fun p => isEmptyAt g p.1 p.2) rowMajor.

(** The deterministic solve-one search, written twice in the sources with the
    same text (the second game-logic file's [solveGrid] and the [solveGrid]
    local to the component's [handleSolve]); the two differ only in which
    [checkPlacement] they call, the parameter [check]. *)
Section SolveOne.
Variable check : Grid -> nat -> nat -> nat -> bool.

(** The [for (num = 0; num < 9; num++)] loop. *)
Fixpoint tryColours (rec : Grid -> option (bool * Grid))
         (row col : nat) (nums : list nat) (g : Grid) : option (bool * Grid) :=
  match nums with
  | [] => Some (false, g)
  | num :: rest =>
      if check g row col num then
        match rec (setValue g row col (Some num)) with
        | None => None
        | Some (true, g') => Some (true, g')
        | Some (false, g') => tryColours rec row col rest (setValue g' row col None)
        end
      else tryColours rec row col rest g
  end.

Fixpoint solveOne (fuel : nat) (g : Grid) : option (bool * Grid) :=
  match fuel with
  | 0 => None
  | S fuel' =>
      match findEmptyCell g with
      | None => Some (true, g)
      | Some (row, col) => tryColours (solveOne fuel') row col (seq 0 9) g
      end
  end.
End SolveOne.

(** ** lib/game-logic.ts *)
Module GameLogic.

Definition isValid (g : Grid) (row col num : nat) : bool :=
  forallb (fun x => negb (holds g row x num)) (seq 0 9)
  && forallb (fun x => negb (holds g x col num)) (seq 0 9)
  && (let startRow := row - row mod 3 in
      let startCol := col - col mod 3 in
      forallb (fun i =>
        forallb (fun j => negb (holds g (i + startRow) (j + startCol) num))
                (seq 0 3)) (seq 0 3)).

(** The [for (num = 0; num < 9; num++)] loop of [countSolutions], from the
    candidates [nums] on, with the running count [solutions]; [rec] is the
    recursive call. *)
Fixpoint countLoop (rec : Grid -> Z -> option (Z * Grid))
         (row col : nat) (limit : Z) (nums : list nat)
         (g : Grid) (solutions : Z) : option (Z * Grid) :=
  match nums with
  | [] => Some (solutions, g)
  | num :: rest =>
      if isValid g row col num then
        match rec (setValue g row col (Some num)) (limit - solutions)%Z with
        | None => None
        | Some (n, g') =>
            let solutions' := (solutions + n)%Z in
            let g'' := setValue g' row col None in
            if (limit <=? solutions')%Z then Some (solutions', g'')
            else countLoop rec row col limit rest g'' solutions'
        end
      else countLoop rec row col limit rest g solutions
  end.

(** [countSolutions(grid, limit)]: the count and the grid as the call leaves it. *)
Fixpoint countSolutions (fuel : nat) (g : Grid) (limit : Z) : option (Z * Grid) :=
  match fuel with
  | 0 => None
  | S fuel' =>
      match findEmptyCell g with
      | None => Some (1%Z, g)
      | Some (row, col) =>
          countLoop (countSolutions fuel') row col limit (seq 0 9) g 0%Z
      end
  end.

Section Random.
Variable rnd : RandomSource.

(** The [for (const num of numbers)] loop of [generateSolution]. *)
Fixpoint tryNumbers (rec : Grid -> nat -> option (bool * Grid * nat))
         (row col : nat) (nums : list nat) (g : Grid) (k : nat)
  : option (bool * Grid * nat) :=
  match nums with
  | [] => Some (false, g, k)
  | num :: rest =>
      if isValid g row col num then
        match rec (setValue g row col (Some num)) k with
        | None => None
        | Some (true, g', k') => Some (true, g', k')
        | Some (false, g', k') =>
            tryNumbers rec row col rest (setValue g' row col None) k'
        end
      else tryNumbers rec row col rest g k
  end.

(** [generateSolution(grid)]: the result, the grid as the call leaves it
    and the number of random draws made so far. *)
Fixpoint generateSolution (fuel : nat) (g : Grid) (k : nat)
  : option (bool * Grid * nat) :=
  match fuel with
  | 0 => None
  | S fuel' =>
      match findEmptyCell g with
      | None => Some (true, g, k)
      | Some (row, col) =>
          let '(numbers, k1) := shuffle rnd (seq 0 9) k in
          tryNumbers (generateSolution fuel') row col numbers g k1
      end
  end.

Definition cellsToRemove (d : Difficulty) : nat :=
  match d with easy => 40 | medium => 50 | hard => 60 end.

(** [grid[i][j].isFixed = true] for every cell. *)
Definition markAllFixed (g : Grid) : Grid :=
  (fun r : list Cell => (fun c => mkCell (value c) true) <$> r) <$> g.

(** The [for (const pos of positions)] loop of [generatePuzzle]. *)
Fixpoint removeCells (target : nat) (positions : list nat)
         (g : Grid) (removed : nat) : option Grid :=
  match positions with
  | [] => Some g
  | pos :: rest =>
      if target <=? removed then Some g
      else
        let row := pos / 9 in
        let col := pos mod 9 in
        let temp := valueAt g row col in
        let g1 := setFixed (setValue g row col None) row col false in
        match countSolutions searchDepth g1 2 with
        | None => None
        | Some (solutions, g2) =>
            if (solutions =? 1)%Z
            then removeCells target rest g2 (S removed)
            else removeCells target rest
                   (setFixed (setValue g2 row col temp) row col true) removed
        end
  end.

(** [generatePuzzle(difficulty)]; the result of [generateSolution] is not
    looked at, as in the source. *)
Definition generatePuzzle (d : Difficulty) : option Grid :=
  match generateSolution searchDepth createEmptyGrid 0 with
  | None => None
  | Some (_, g, k) =>
      let '(positions, _) := shuffle rnd (seq 0 81) k in
      removeCells (cellsToRemove d) positions (markAllFixed g) 0
  end.
End Random.

(** The 9 values the [i]-th pass of [checkWin] adds to each [Set]. *)
Definition rowValues (g : Grid) (i : nat) : list (option nat) :=
  (fun j => valueAt g i j) <$> seq 0 9.
Definition colValues (g : Grid) (i : nat) : list (option nat) :=
  (fun j => valueAt g j i) <$> seq 0 9.
Definition boxValues (g : Grid) (i : nat) : list (option nat) :=
  (fun j => valueAt g (i / 3 * 3 + j / 3) (i mod 3 * 3 + j mod 3)) <$> seq 0 9.

(** [new Set()] filled by [add], then [.size]: the number of distinct values. *)
Definition setSize (l : list (option nat)) : nat :=
  length (remove_dups l).

Definition checkWin (g : Grid) : bool :=
  forallb (fun p => negb (isEmptyAt g p.1 p.2)) rowMajor
  && forallb (fun i =>
       negb ((negb (setSize (rowValues g i) =? 9))
             || (negb (setSize (colValues g i) =? 9))
             || (negb (setSize (boxValues g i) =? 9)))) (seq 0 9).

Definition checkPlacement (g : Grid) (row col val : nat) : bool :=
  forallb (fun x => negb ((negb (x =? col)) && holds g row x val)) (seq 0 9)
  && forallb (fun x => negb ((negb (x =? row)) && holds g x col val)) (seq 0 9)
  && (let startRow := row - row mod 3 in
      let startCol := col - col mod 3 in
      forallb (fun i =>
        forallb (fun j =>
          negb ((negb (startRow + i =? row) || negb (startCol + j =? col))
                && holds g (startRow + i) (startCol + j) val))
                (seq 0 3)) (seq 0 3)).

End GameLogic.


(** ** The second game-logic file *)
Module GameLogicB.

Definition checkPlacement (g : Grid) (row col val : nat) : bool :=
  forallb (fun i => negb ((negb (i =? col)) && holds g row i val)) (seq 0 9)
  && forallb (fun i => negb ((negb (i =? row)) && holds g i col val)) (seq 0 9)
  && (let boxRow := row / 3 * 3 in
      let boxCol := col / 3 * 3 in
      forallb (fun i =>
        forallb (fun j =>
          let currentRow := boxRow + i in
          let currentCol := boxCol + j in
          negb ((negb (currentRow =? row)) && (negb (currentCol =? col))
                && holds g currentRow currentCol val))
                (seq 0 3)) (seq 0 3)).

(** [checkWin]: only the scan for an empty cell. *)
Definition checkWin (g : Grid) : bool :=
  forallb (fun p => negb (isEmptyAt g p.1 p.2)) rowMajor.

Definition solveGrid : nat -> Grid -> option (bool * Grid) :=
  solveOne checkPlacement.

(** The loop of [findSolutions]; [solutions] is the array of deep copies. *)
Fixpoint findLoop (rec : Grid -> list Grid -> option (list Grid * Grid))
         (row col : nat) (nums : list nat) (g : Grid) (solutions : list Grid)
  : option (list Grid * Grid) :=
  match nums with
  | [] => Some (solutions, g)
  | num :: rest =>
      if checkPlacement g row col num then
        match rec (setValue g row col (Some num)) solutions with
        | None => None
        | Some (solutions', g') =>
            let g'' := setValue g' row col None in
            if 1 <? length solutions' then Some (solutions', g'')
            else findLoop rec row col rest g'' solutions'
        end
      else findLoop rec row col rest g solutions
  end.

Fixpoint findSolutions (fuel : nat) (g : Grid) (solutions : list Grid)
  : option (list Grid * Grid) :=
  match fuel with
  | 0 => None
  | S fuel' =>
      match findEmptyCell g with
      | None => Some (solutions ++ [g], g)
      | Some (row, col) => findLoop (findSolutions fuel') row col (seq 0 9) g solutions
      end
  end.

Definition hasUniqueSolution (g : Grid) : option bool :=
  match findSolutions searchDepth g [] with
  | None => None
  | Some (solutions, _) => Some (length solutions =? 1)
  end.

Section Random.
Variable rnd : RandomSource.

(** [fillBox]: the nine shuffled numbers written row by row into the box. *)
Definition fillBox (g : Grid) (startRow startCol : nat) (k : nat) : Grid * nat :=
  let '(numbers, k') := shuffle rnd (seq 0 9) k in
  (foldl (fun g index =>
            setValue g (startRow + index / 3) (startCol + index mod 3)
                     (numbers !! index))
         g (seq 0 9), k').

Definition cellsToRemove (d : Difficulty) : nat :=
  match d with easy => 40 | medium => 50 | hard => 60 end.

(** The [for (i = 0; i < cellsToRemove; i++)] loop over [positions[i]];
    the uniqueness check runs on a deep copy, so it leaves [g] alone. *)
Fixpoint removeCells (positions : list (nat * nat)) (g : Grid) : option Grid :=
  match positions with
  | [] => Some g
  | (row, col) :: rest =>
      let backup := valueAt g row col in
      let g1 := setValue g row col None in
      match hasUniqueSolution g1 with
      | None => None
      | Some true => removeCells rest g1
      | Some false => removeCells rest (setValue g1 row col backup)
      end
  end.

(** [if (grid[row][col].value !== null) grid[row][col].isFixed = true] *)
Definition markFilledFixed (g : Grid) : Grid :=
  (fun r : list Cell =>
     (fun c => match value c with
               | Some _ => mkCell (value c) true
               | None => c
               end) <$> r) <$> g.

(** The first half of [generatePuzzle]: the three diagonal boxes, then
    [solveGrid].  The result of [solveGrid], which the source does not look
    at, the grid, and the number of random draws made. *)
Definition fillAndSolve : option (bool * Grid * nat) :=
  let '(g1, k1) := fillBox createEmptyGrid 0 0 0 in
  let '(g2, k2) := fillBox g1 3 3 k1 in
  let '(g3, k3) := fillBox g2 6 6 k2 in
  match solveGrid searchDepth g3 with
  | None => None
  | Some (b, g4) => Some (b, g4, k3)
  end.

Definition generatePuzzle (d : Difficulty) : option Grid :=
  match fillAndSolve with
  | None => None
  | Some (_, g4, k3) =>
      let '(positions, _) :=
        shuffle rnd ((fun i => (i / 9, i mod 9)) <$> seq 0 81) k3 in
      match removeCells (take (cellsToRemove d) positions) g4 with
      | None => None
      | Some g5 => Some (markFilledFixed g5)
      end
  end.
End Random.

End GameLogicB.

(** ** components/mejiku-game.tsx

    The React state that matters to the game: the grid, the selected cell
    [[x, y]], the selected colour, the completion flag and the error cell.
    A handler reads the state of the render it was created in and queues its
    updates; the result is the state of the next render. *)
Record GameState : Type := mkState {
  grid : Grid;
  selectedCell : option (nat * nat);
  selectedColor : option nat;
  isComplete : bool;
  errorCell : option (nat * nat)
}.

(** [grid.map(row => row.map(cell => ({...cell, isFixed: cell.value !== null})))] *)
Definition fixFilled (g : Grid) : Grid :=
  (fun r : list Cell =>
     (fun c => mkCell (value c) (match value c with Some _ => true | None => false end))
       <$> r) <$> g.

(** [handleSolve], the same in both copies of the component. *)
Definition handleSolve (s : GameState) : GameState :=
  match solveOne GameLogic.checkPlacement searchDepth (fixFilled (grid s)) with
  | Some (true, solved) =>
      mkState solved None None (isComplete s) (errorCell s)
  | _ => s
  end.

(** [startNewGame(difficulty)], with the random source of this call. *)
Definition startNewGame (rnd : RandomSource) (d : Difficulty) (s : GameState)
  : GameState :=
  match GameLogic.generatePuzzle rnd d with
  | Some g => mkState g None None false (errorCell s)
  | None => s
  end.

(** The state of the first render: [useState(() => generatePuzzle("easy"))]. *)
Definition initialState (rnd : RandomSource) : option GameState :=
  match GameLogic.generatePuzzle rnd easy with
  | Some g => Some (mkState g None None false None)
  | None => None
  end.

(** The current component. *)
Module Component.

(** [handleColorSelect(colorIndex)].  [GAME_COLORS[colorIndex].value] raises
    a TypeError for an index outside the palette, after [setSelectedColor]
    and before [setGrid]. *)
Definition handleColorSelect (colorIndex : nat) (s : GameState) : GameState :=
  match selectedCell s with
  | None => s
  | Some (x, y) =>
      if fixedAt (grid s) y x then s
      else
        let oldValue := valueAt (grid s) y x in
        if bool_decide (oldValue = Some colorIndex) then
          mkState (setValue (grid s) y x None) None None
                  (isComplete s) (errorCell s)
        else if 9 <=? colorIndex then
          mkState (grid s) (selectedCell s) (Some colorIndex)
                  (isComplete s) (errorCell s)
        else
          let newGrid := setValue (grid s) y x (Some colorIndex) in
          mkState newGrid (selectedCell s) (Some colorIndex)
                  (if GameLogic.checkWin newGrid then true else isComplete s)
                  (if GameLogic.checkPlacement newGrid y x colorIndex
                   then None else Some (x, y))
  end.

(** [p.mousePressed], for a press inside the canvas at cell [(cellX, cellY)].
    [handleColorSelect] runs in the same render, so it still sees the old
    selection; [setSelectedCell([cellX, cellY])] is queued before it. *)
Definition mousePressed (cellX cellY : nat) (s : GameState) : GameState :=
  if (cellX <? 9) && (cellY <? 9) then
    if fixedAt (grid s) cellY cellX then s
    else if bool_decide (selectedCell s = Some (cellX, cellY)) then
      mkState (setValue (grid s) cellY cellX None) None None
              (isComplete s) (errorCell s)
    else
      match selectedColor s with
      | None =>
          mkState (grid s) (Some (cellX, cellY)) (selectedColor s)
                  (isComplete s) (errorCell s)
      | Some colour =>
          let s' := handleColorSelect colour s in
          match selectedCell s with
          | Some (x, y) =>
              if fixedAt (grid s) y x
              then mkState (grid s') (Some (cellX, cellY)) (selectedColor s')
                           (isComplete s') (errorCell s')
              else if bool_decide (valueAt (grid s) y x = Some colour)
              then s'
              else mkState (grid s') (Some (cellX, cellY)) (selectedColor s')
                           (isComplete s') (errorCell s')
          | None =>
              mkState (grid s') (Some (cellX, cellY)) (selectedColor s')
                      (isComplete s') (errorCell s')
          end
      end
  else s.

(** What the player (and the error timer) can do between two new games. *)
Inductive Action : Type :=
| MousePressed (cellX cellY : nat)
| ColorSelect (colorIndex : nat)
| Solve
| ErrorTimeout.

Definition step (s : GameState) (a : Action) : GameState :=
  match a with
  | MousePressed x y => mousePressed x y s
  | ColorSelect c => handleColorSelect c s
  | Solve => handleSolve s
  | ErrorTimeout => mkState (grid s) (selectedCell s) (selectedColor s)
                            (isComplete s) None
  end.

Definition run (s : GameState) (actions : list Action) : GameState :=
  foldl step s actions.

End Component.

(** The earlier copy of the component. *)
Module ComponentEarlier.

Definition handleColorSelect (colorIndex : nat) (s : GameState) : GameState :=
  match selectedCell s with
  | None => s
  | Some (x, y) =>
      if fixedAt (grid s) y x then s
      else if 9 <=? colorIndex then s
      else
        let newGrid := setValue (grid s) y x (Some colorIndex) in
        mkState newGrid (selectedCell s) (selectedColor s)
                (if GameLogic.checkWin newGrid then true else isComplete s)
                (if GameLogic.checkPlacement newGrid y x colorIndex
                 then None else Some (x, y))
  end.

Definition mousePressed (cellX cellY : nat) (s : GameState) : GameState :=
  if (cellX <? 9) && (cellY <? 9) then
    if fixedAt (grid s) cellY cellX then s
    else mkState (grid s) (Some (cellX, cellY)) (selectedColor s)
                 (isComplete s) (errorCell s)
  else s.

Inductive Action : Type :=
| MousePressed (cellX cellY : nat)
| ColorSelect (colorIndex : nat)
| Solve
| ErrorTimeout.

Definition step (s : GameState) (a : Action) : GameState :=
  match a with
  | MousePressed x y => mousePressed x y s
  | ColorSelect c => handleColorSelect c s
  | Solve => handleSolve s
  | ErrorTimeout => mkState (grid s) (selectedCell s) (selectedColor s)
                            (isComplete s) None
  end.

Definition run (s : GameState) (actions : list Action) : GameState :=
  foldl step s actions.

End ComponentEarlier.

(* ===================================================================== *)
(** * Part II: what the specification talks about                        *)
(* ===================================================================== *)

(** ** Grids, constraints and completions *)

(** A grid is a 9 x 9 matrix of cells. *)
Definition shape9 (g : Grid) : Prop :=
  length g = 9 /\ Forall (fun r : list Cell => length r = 9) g.

(** Every value stored in the grid is one of the nine colours. *)
Definition coloursOk (g : Grid) : Prop :=
  forall r c v, r < 9 -> c < 9 -> valueAt g r c = Some v -> v < 9.

(** No empty cell. *)
Definition full (g : Grid) : Prop :=
  forall r c, r < 9 -> c < 9 -> valueAt g r c <> None.

(** Two distinct positions that share a row, a column or a 3 x 3 box. *)
Definition sameBox (r c r' c' : nat) : Prop := r' / 3 = r / 3 /\ c' / 3 = c / 3.

Definition peers (r c r' c' : nat) : Prop :=
  (r', c') <> (r, c) /\ (r' = r \/ c' = c \/ sameBox r c r' c').

(** No colour twice in a row, a column or a box. *)
Definition noConflict (g : Grid) : Prop :=
  forall r c r' c' v,
    r < 9 -> c < 9 -> r' < 9 -> c' < 9 -> peers r c r' c' ->
    valueAt g r c = Some v -> valueAt g r' c' <> Some v.

(** Some cell other than [(r, c)] sharing its row, column or box holds [v]. *)
Definition conflictAt (g : Grid) (r c v : nat) : Prop :=
  exists r' c', r' < 9 /\ c' < 9 /\ peers r c r' c' /\ valueAt g r' c' = Some v.

(** The rows, columns and boxes, as sets of positions. *)
Inductive House : Type :=
| RowH (i : nat)
| ColH (i : nat)
| BoxH (bandRow bandCol : nat).

Definition inHouse (h : House) (r c : nat) : Prop :=
  match h with
  | RowH i => r = i
  | ColH i => c = i
  | BoxH br bc => r / 3 = br /\ c / 3 = bc
  end.

Definition isHouse (h : House) : Prop :=
  match h with
  | RowH i | ColH i => i < 9
  | BoxH br bc => br < 3 /\ bc < 3
  end.

(** Colour [v] appears exactly once in house [h]. *)
Definition exactlyOnce (g : Grid) (h : House) (v : nat) : Prop :=
  exists r c,
    (r < 9 /\ c < 9 /\ inHouse h r c /\ valueAt g r c = Some v)
    /\ forall r' c', r' < 9 -> c' < 9 -> inHouse h r' c' ->
                     valueAt g r' c' = Some v -> r' = r /\ c' = c.

(** The constraint of the game: each of the nine colours exactly once in
    every row, every column and every box. *)
Definition satisfiesConstraints (g : Grid) : Prop :=
  forall h v, isHouse h -> v < 9 -> exactlyOnce g h v.

(** [s] completes [g]: same shape and flags, the filled cells of [g] kept,
    and the constraint satisfied. *)
Definition extends (g s : Grid) : Prop :=
  forall r c, r < 9 -> c < 9 ->
    fixedAt s r c = fixedAt g r c
    /\ forall v, valueAt g r c = Some v -> valueAt s r c = Some v.

Definition completion (g s : Grid) : Prop :=
  shape9 s /\ extends g s /\ satisfiesConstraints s.

(** [n] is the number of distinct completions of [g]. *)
Definition numCompletions (g : Grid) (n : nat) : Prop :=
  exists l : list Grid,
    NoDup l /\ (forall s, s ∈ l <-> completion g s) /\ length l = n.

(** The counting solver, run on [g] with [limit], returns the number of
    completions of [g] capped at [limit], and leaves [g] as it was. *)
Definition countsCompletions (g : Grid) (limit : Z) : Prop :=
  forall n, numCompletions g n ->
    GameLogic.countSolutions searchDepth g limit = Some (Z.min (Z.of_nat n) limit, g).

(** The number of empty cells of a grid. *)
Definition emptyCells (g : Grid) : list (nat * nat) :=
  List.filter (fun p => isEmptyAt g p.1 p.2) rowMajor.

Definition emptyCount (g : Grid) : nat := length (emptyCells g).

Definition fixedCount (g : Grid) : nat :=
  length (List.filter (fun p => fixedAt g p.1 p.2) rowMajor).

(** The cell invariant of the data model: a fixed cell is never empty. *)
Definition cellInvariant (g : Grid) : Prop :=
  forall r c, r < 9 -> c < 9 -> fixedAt g r c = true -> valueAt g r c <> None.

(** ** Notions used in the proofs *)

(** The three families of index maps that [checkWin] walks are injective on
    values exactly when no two cells of a row, column or box agree. *)
Definition housesDistinct (g : Grid) : Prop :=
  forall i, i < 9 ->
    NoDup (GameLogic.rowValues g i) /\ NoDup (GameLogic.colValues g i)
    /\ NoDup (GameLogic.boxValues g i).

(** The nine cells of a house, in some order. *)
Definition houseCell (h : House) (j : nat) : nat * nat :=
  match h with
  | RowH i => (i, j)
  | ColH i => (j, i)
  | BoxH br bc => (br * 3 + j / 3, bc * 3 + j mod 3)
  end.

(** Every way of writing colours into the cells [cells]. *)
Fixpoint fillCells (cells : list (nat * nat)) (g : Grid) : list Grid :=
  match cells with
  | [] => [g]
  | (r, c) :: rest => v ← seq 0 9; fillCells rest (setValue g r c (Some v))
  end.

Definition coloursOkb (g : Grid) : bool :=
  forallb (fun p => match valueAt g p.1 p.2 with
                    | Some v => v <? 9
                    | None => true
                    end) rowMajor.

Definition solvedb (g : Grid) : bool := GameLogic.checkWin g && coloursOkb g.

Definition completionsOf (g : Grid) : list Grid :=
  List.filter solvedb (fillCells (emptyCells g) g).

(** The completions that write one of [nums] into cell [(r, c)]. *)
Definition completionsVia (g : Grid) (r c : nat) (nums : list nat) : list Grid :=
  v ← nums; completionsOf (setValue g r c (Some v)).

(** What a solve-one search may answer on grid [g]: [false] with the grid
    put back and no completion at all, or [true] with a completion. *)
Definition solveOutcome (g : Grid) (b : bool) (g' : Grid) : Prop :=
  (b = false -> g' = g /\ forall s, ~ completion g s)
  /\ (b = true -> completion g g').

(** What the loop over the candidates [nums] for cell [(row, col)] may answer:
    [false] with the grid put back and no completion holding one of [nums] at
    the cell, or [true] with a completion. *)
Definition loopOutcome (g : Grid) (row col : nat) (nums : list nat)
           (b : bool) (g' : Grid) : Prop :=
  (b = false ->
   g' = g /\ forall s v, completion g s -> valueAt s row col = Some v -> v ∉ nums)
  /\ (b = true -> completion g g').

(** What the removal loop keeps true of the grid. *)
Record puzzleInvariant (g : Grid) : Prop := {
  inv_shape : shape9 g;
  inv_colours : coloursOk g;
  inv_noConflict : noConflict g;
  inv_flags : forall r c, r < 9 -> c < 9 -> fixedAt g r c = negb (isEmptyAt g r c);
  inv_unique : length (completionsOf g) = 1
}.

(** No cell is marked fixed. *)
Definition allUnfixed (g : Grid) : Prop :=
  forall r c, r < 9 -> c < 9 -> fixedAt g r c = false.

(** From one render to the next: the grid stays 9 x 9, keeps the cell
    invariant, and its fixed cells are untouched. *)
Definition frozenStep (g g' : Grid) : Prop :=
  shape9 g' /\ cellInvariant g'
  /\ forall r c, r < 9 -> c < 9 -> fixedAt g r c = true -> cellAt g' r c = cellAt g r c.

(** The values of [vals] under the flags of [flags]. *)
Definition withFlags (flags vals : Grid) : Grid :=
  zip_with (zip_with (fun f v => mkCell (value v) (isFixed f))) flags vals.

(** Only cells of the three diagonal boxes are filled, with colours, and no
    colour twice in a box. *)
Definition diagonalOnly (g : Grid) : Prop :=
  (forall r c v, r < 9 -> c < 9 -> valueAt g r c = Some v -> r / 3 = c / 3 /\ v < 9)
  /\ (forall r c r' c' v, r < 9 -> c < 9 -> r' < 9 -> c' < 9 ->
        r' / 3 = r / 3 -> c' / 3 = c / 3 ->
        valueAt g r c = Some v -> valueAt g r' c' = Some v -> r' = r /\ c' = c).

(** What the removal loop of the second file keeps true of the grid. *)
Record uniqueGrid (g : Grid) : Prop := {
  ug_shape : shape9 g;
  ug_colours : coloursOk g;
  ug_noConflict : noConflict g;
  ug_unique : length (completionsOf g) = 1
}.

(** ** Sample grids and states *)

(** The colour of cell [(r, c)] in a solved grid: rows shifted by three
    inside a band and by one from band to band. *)
Definition shiftedSolution : Grid :=
  (fun r => (fun c => mkCell (Some ((3 * (r mod 3) + r / 3 + c) mod 9)) false)
              <$> seq 0 9) <$> seq 0 9.

(** A grid from its colours, every cell with the same flag. *)
Definition ofColours (rows : list (list (option nat))) (fixed : bool) : Grid :=
  (fun row : list (option nat) => (fun v => mkCell v fixed) <$> row) <$> rows.

(** Every cell holds colour 0: full, and wrong in every row, column and box. *)
Definition allZeroGrid : Grid := ofColours (replicate 9 (replicate 9 (Some 0))) false.

(** The scenario of the specification: colour 2 at (0,0) and at (0,1). *)
Definition twoTwosGrid : Grid :=
  setValue (setValue createEmptyGrid 0 0 (Some 2)) 0 1 (Some 2).

(** [shiftedSolution] without its first cell. *)
Definition oneMissingGrid : Grid := setValue shiftedSolution 0 0 None.

(** A puzzle state: [shiftedSolution] with its first row cleared, the rest fixed. *)
Definition samplePuzzle : Grid :=
  foldl (fun g c => setFixed (setValue g 0 c None) 0 c false)
        (GameLogic.markAllFixed shiftedSolution) (seq 0 9).

(** A sample state of the game: the first cell is selected. *)
Definition sampleState : GameState :=
  mkState samplePuzzle (Some (0, 0)) (Some 4) false None.


(** The puzzle [generatePuzzle("easy")] of the second game-logic file returns
    when the [n]-th draw of the random source is [n]. *)
Definition easyPuzzleB : option Grid :=
  Eval vm_compute in GameLogicB.generatePuzzle (fun n => n) easy.

(** The puzzle [generatePuzzle("easy")] of lib/game-logic.ts returns on that
    same random source. *)
Definition easyPuzzleSame : option Grid :=
  Eval vm_compute in GameLogic.generatePuzzle (fun n => n) easy.


(* ===================================================================== *)
(** * Part III: lemmas                                                   *)
(* ===================================================================== *)

(** ** Reading and writing a 9 x 9 grid *)

Lemma in_rowMajor r c : In (r, c) rowMajor <-> r < 9 /\ c < 9.
Proof.
  unfold rowMajor. rewrite <- list_elem_of_In, list_elem_of_bind. split.
  - intros (r' & Hc & Hr). apply list_elem_of_fmap in Hc as (c' & Heq & Hc).
    apply elem_of_seq in Hr, Hc. inversion Heq; subst. lia.
  - intros [Hr Hc]. exists r. split.
    + apply list_elem_of_fmap. exists c. split; [done|]. apply elem_of_seq. lia.
    + apply elem_of_seq. lia.
Qed.

Lemma NoDup_rowMajor : NoDup rowMajor.
Proof. apply (bool_decide_unpack _). by vm_compute. Qed.

Lemma shape9_row g r : shape9 g -> r < 9 -> exists row, g !! r = Some row /\ length row = 9.
Proof.
  intros [Hlen Hrows] Hr.
  destruct (lookup_lt_is_Some_2 g r) as [row Hrow]; [lia|].
  exists row. split; [done|]. by eapply (Forall_lookup_1 _ _ _ _ Hrows).
Qed.

Lemma shape9_cellAt g r c : shape9 g -> r < 9 -> c < 9 -> is_Some (cellAt g r c).
Proof.
  intros Hg Hr Hc. destruct (shape9_row g r Hg Hr) as (row & Hrow & Hlen).
  unfold cellAt. rewrite Hrow. apply lookup_lt_is_Some_2. lia.
Qed.

Lemma cellAt_updCell f g r c r' c' :
  cellAt (updCell f g r c) r' c'
  = if decide (r' = r /\ c' = c) then f <$> cellAt g r c else cellAt g r' c'.
Proof.
  unfold cellAt, updCell. rewrite list_lookup_alter.
  destruct (decide (r = r')) as [->|Hr].
  - destruct (g !! r') as [row|]; simpl.
    + rewrite list_lookup_alter. repeat case_decide; intuition congruence.
    + case_decide; intuition congruence.
  - case_decide; intuition congruence.
Qed.

Lemma shape9_updCell f g r c : shape9 g -> shape9 (updCell f g r c).
Proof.
  intros [Hlen Hrows]. unfold updCell. split.
  - by rewrite length_alter.
  - apply Forall_lookup. intros i row. rewrite list_lookup_alter.
    case_decide; [subst|].
    + destruct (g !! i) as [row'|] eqn:E; simpl; [|done].
      intros [= <-]. rewrite length_alter. by eapply (Forall_lookup_1 _ _ _ _ Hrows).
    + intros E. by eapply (Forall_lookup_1 _ _ _ _ Hrows).
Qed.

Lemma shape9_setValue g r c v : shape9 g -> shape9 (setValue g r c v).
Proof. apply shape9_updCell. Qed.

Lemma shape9_setFixed g r c b : shape9 g -> shape9 (setFixed g r c b).
Proof. apply shape9_updCell. Qed.

Lemma grid_ext g g' :
  shape9 g -> shape9 g' ->
  (forall r c, r < 9 -> c < 9 -> cellAt g r c = cellAt g' r c) -> g = g'.
Proof.
  intros Hg Hg' Heq. apply list_eq. intros r.
  destruct (decide (r < 9)) as [Hr|Hr].
  - destruct (shape9_row g r Hg Hr) as (row & Hrow & Hlen).
    destruct (shape9_row g' r Hg' Hr) as (row' & Hrow' & Hlen').
    rewrite Hrow, Hrow'. f_equal. apply list_eq. intros c.
    destruct (decide (c < 9)) as [Hc|Hc].
    + specialize (Heq r c Hr Hc). unfold cellAt in Heq. by rewrite Hrow, Hrow' in Heq.
    + rewrite !lookup_ge_None_2; [done|lia|lia].
  - destruct Hg as [Hl _], Hg' as [Hl' _]. rewrite !lookup_ge_None_2; [done|lia|lia].
Qed.

Lemma valueAt_setValue g r c v r' c' :
  valueAt (setValue g r c v) r' c'
  = if decide (r' = r /\ c' = c)
    then match cellAt g r c with Some _ => v | None => None end else valueAt g r' c'.
Proof.
  unfold valueAt, setValue. rewrite cellAt_updCell.
  case_decide; [|done]. by destruct (cellAt g r c).
Qed.

Lemma valueAt_setValue_eq g r c v :
  shape9 g -> r < 9 -> c < 9 -> valueAt (setValue g r c v) r c = v.
Proof.
  intros Hg Hr Hc. rewrite valueAt_setValue.
  destruct (shape9_cellAt g r c Hg Hr Hc) as [x ->]. case_decide; intuition congruence.
Qed.

Lemma valueAt_setValue_ne g r c v r' c' :
  (r', c') <> (r, c) -> valueAt (setValue g r c v) r' c' = valueAt g r' c'.
Proof.
  intros Hne. rewrite valueAt_setValue. case_decide as H; [|done].
  destruct H as [-> ->]. congruence.
Qed.

Lemma fixedAt_setValue g r c v r' c' :
  fixedAt (setValue g r c v) r' c' = fixedAt g r' c'.
Proof.
  unfold fixedAt, setValue. rewrite cellAt_updCell.
  case_decide as H; [|done]. destruct H as [-> ->]. by destruct (cellAt g r c).
Qed.

Lemma valueAt_setFixed g r c b r' c' :
  valueAt (setFixed g r c b) r' c' = valueAt g r' c'.
Proof.
  unfold valueAt, setFixed. rewrite cellAt_updCell.
  case_decide as H; [|done]. destruct H as [-> ->]. by destruct (cellAt g r c).
Qed.

Lemma fixedAt_setFixed_eq g r c b :
  shape9 g -> r < 9 -> c < 9 -> fixedAt (setFixed g r c b) r c = b.
Proof.
  intros Hg Hr Hc. unfold fixedAt, setFixed. rewrite cellAt_updCell.
  destruct (shape9_cellAt g r c Hg Hr Hc) as [x ->]. case_decide; intuition congruence.
Qed.

Lemma fixedAt_setFixed_ne g r c b r' c' :
  (r', c') <> (r, c) -> fixedAt (setFixed g r c b) r' c' = fixedAt g r' c'.
Proof.
  intros Hne. unfold fixedAt, setFixed. rewrite cellAt_updCell.
  case_decide as H; [|done]. destruct H as [-> ->]. congruence.
Qed.

(** Two 9 x 9 grids with the same values and flags are equal. *)
Lemma grid_ext_fields g g' :
  shape9 g -> shape9 g' ->
  (forall r c, r < 9 -> c < 9 ->
     valueAt g r c = valueAt g' r c /\ fixedAt g r c = fixedAt g' r c) ->
  g = g'.
Proof.
  intros Hg Hg' Heq. apply grid_ext; [done..|]. intros r c Hr Hc.
  destruct (Heq r c Hr Hc) as [Hv Hf]. unfold valueAt, fixedAt in *.
  destruct (shape9_cellAt g r c Hg Hr Hc) as [[v f] E].
  destruct (shape9_cellAt g' r c Hg' Hr Hc) as [[v' f'] E'].
  rewrite E, E' in *. simpl in *. by subst.
Qed.

(** Writing a value and then [null] again leaves an empty cell as it was. *)
Lemma setValue_undo g r c v :
  shape9 g -> r < 9 -> c < 9 -> valueAt g r c = None ->
  setValue (setValue g r c v) r c None = g.
Proof.
  intros Hg Hr Hc Hv.
  apply grid_ext_fields; [by do 2 apply shape9_setValue|done|].
  intros r' c' Hr' Hc'. rewrite !fixedAt_setValue. split; [|done].
  destruct (decide ((r', c') = (r, c))) as [[= -> ->]|Hne].
  - rewrite valueAt_setValue_eq; [done|by apply shape9_setValue|done..].
  - by rewrite !valueAt_setValue_ne.
Qed.

(** ** Empty cells *)

Lemma find_filter_head {A} (f : A -> bool) l : find f l = head (List.filter f l).
Proof. induction l as [|x l IH]; simpl; [done|]. by destruct (f x). Qed.

Lemma filter_change_head {A} (P Q : A -> bool) l p rest :
  NoDup l -> (forall x, x <> p -> Q x = P x) -> Q p = false ->
  List.filter P l = p :: rest -> List.filter Q l = rest.
Proof.
  intros Hnd Hother Hp. revert rest. induction Hnd as [|x l Hx Hnd IH]; intros rest; simpl; [done|].
  destruct (P x) eqn:HPx.
  - intros [= -> <-]. rewrite Hp. apply filter_ext_in. intros y Hy. apply Hother.
    intros ->. by apply list_elem_of_In in Hy.
  - intros Hrest. assert (x <> p) as Hne.
    { intros ->. assert (In p (List.filter P l)) as Hin by (rewrite Hrest; by left).
      apply filter_In in Hin as [Hin _]. by apply list_elem_of_In in Hin. }
    rewrite (Hother x Hne), HPx. by apply IH.
Qed.

Lemma filter_change_length `{EqDecision A} (P Q : A -> bool) l p :
  NoDup l -> (forall x, x <> p -> Q x = P x) ->
  length (List.filter Q l) <= S (length (List.filter P l)).
Proof.
  intros Hnd Hother. induction Hnd as [|x l Hx Hnd IH]; simpl; [lia|].
  destruct (decide (x = p)) as [->|Hne].
  - assert (List.filter Q l = List.filter P l) as ->.
    { apply filter_ext_in. intros y Hy. apply Hother. intros ->.
      by apply list_elem_of_In in Hy. }
    destruct (P p), (Q p); simpl; lia.
  - rewrite (Hother x Hne). destruct (P x); simpl; lia.
Qed.

Lemma isEmptyAt_setValue_ne g r c v r' c' :
  (r', c') <> (r, c) -> isEmptyAt (setValue g r c v) r' c' = isEmptyAt g r' c'.
Proof. intros H. unfold isEmptyAt. by rewrite valueAt_setValue_ne. Qed.

Lemma isEmptyAt_setFixed g r c b r' c' :
  isEmptyAt (setFixed g r c b) r' c' = isEmptyAt g r' c'.
Proof. unfold isEmptyAt. by rewrite valueAt_setFixed. Qed.

Lemma emptyCells_nil g : emptyCells g = [] <-> full g.
Proof.
  unfold emptyCells, full. split.
  - intros Hnil r c Hr Hc Hv.
    assert (In (r, c) (List.filter (fun p => isEmptyAt g p.1 p.2) rowMajor)) as Hin.
    { apply filter_In. split; [by apply in_rowMajor|]. unfold isEmptyAt. simpl. by rewrite Hv. }
    by rewrite Hnil in Hin.
  - intros Hfull.
    destruct (List.filter _ rowMajor) as [|[r c] l] eqn:E; [done|].
    assert (In (r, c) (List.filter (fun p => isEmptyAt g p.1 p.2) rowMajor)) as Hin
      by (rewrite E; by left).
    apply filter_In in Hin as [Hin Hempty]. apply in_rowMajor in Hin as [Hr Hc].
    unfold isEmptyAt in Hempty. simpl in Hempty.
    specialize (Hfull r c Hr Hc). by destruct (valueAt g r c).
Qed.

Lemma findEmptyCell_None g : findEmptyCell g = None <-> full g.
Proof.
  rewrite <- emptyCells_nil. unfold findEmptyCell, emptyCells.
  rewrite find_filter_head. by destruct (List.filter _ _).
Qed.

Lemma findEmptyCell_Some g r c :
  findEmptyCell g = Some (r, c) ->
  r < 9 /\ c < 9 /\ valueAt g r c = None /\ exists rest, emptyCells g = (r, c) :: rest.
Proof.
  unfold findEmptyCell. intros Hfind.
  pose proof (find_some _ _ Hfind) as [Hin Hempty].
  apply in_rowMajor in Hin as [Hr Hc]. unfold isEmptyAt in Hempty. simpl in Hempty.
  repeat split; [done..| |].
  - by destruct (valueAt g r c).
  - rewrite find_filter_head in Hfind. unfold emptyCells.
    destruct (List.filter _ _) as [|p rest]; [done|]. simpl in Hfind.
    exists rest. congruence.
Qed.

Lemma emptyCells_fill g r c v rest :
  shape9 g -> r < 9 -> c < 9 ->
  emptyCells g = (r, c) :: rest -> emptyCells (setValue g r c (Some v)) = rest.
Proof.
  intros Hg Hr Hc. unfold emptyCells.
  apply filter_change_head; [apply NoDup_rowMajor| |].
  - intros [r' c'] Hne. by apply isEmptyAt_setValue_ne.
  - unfold isEmptyAt. simpl. by rewrite valueAt_setValue_eq.
Qed.

Lemma emptyCount_fill g r c v :
  shape9 g -> findEmptyCell g = Some (r, c) ->
  S (emptyCount (setValue g r c (Some v))) = emptyCount g.
Proof.
  intros Hg Hfind. apply findEmptyCell_Some in Hfind as (Hr & Hc & _ & rest & Hrest).
  unfold emptyCount. by rewrite (emptyCells_fill g r c v rest), Hrest.
Qed.

Lemma emptyCount_clear g r c :
  emptyCount (setValue g r c None) <= S (emptyCount g).
Proof.
  unfold emptyCount, emptyCells. apply (filter_change_length _ _ _ (r, c)).
  - apply NoDup_rowMajor.
  - intros [r' c'] Hne. by apply isEmptyAt_setValue_ne.
Qed.

Lemma emptyCount_setFixed g r c b : emptyCount (setFixed g r c b) = emptyCount g.
Proof.
  unfold emptyCount, emptyCells. f_equal. apply filter_ext.
  intros [r' c']. apply isEmptyAt_setFixed.
Qed.

Lemma emptyCount_le_81 g : emptyCount g <= 81.
Proof.
  unfold emptyCount, emptyCells.
  etransitivity; [apply List.filter_length_le|]. by vm_compute.
Qed.

(** Linear arithmetic with division and remainder by constants. *)
Ltac dlia := zify; Z.to_euclidean_division_equations; lia.

(** ** Legal placements *)

Lemma holds_true g r c v : holds g r c v = true <-> valueAt g r c = Some v.
Proof.
  unfold holds. destruct (valueAt g r c) as [w|]; [|done].
  rewrite Nat.eqb_eq. split; congruence.
Qed.

Lemma forallb_false {A} (f : A -> bool) l :
  forallb f l = false <-> exists x, In x l /\ f x = false.
Proof.
  induction l as [|x l IH]; simpl.
  - split; [done|]. by intros (x & [] & _).
  - rewrite andb_false_iff, IH. split.
    + intros [Hx|(y & Hy & Hf)]; [exists x; auto|exists y; auto].
    + intros (y & [<-|Hy] & Hf); [by left|right; by exists y].
Qed.

Lemma checkPlacement_false g row col v :
  row < 9 -> col < 9 ->
  (GameLogic.checkPlacement g row col v = false <-> conflictAt g row col v).
Proof.
  intros Hrow Hcol. unfold GameLogic.checkPlacement, conflictAt, peers, sameBox.
  cbv zeta. rewrite !andb_false_iff, !forallb_false. split.
  - intros [[(x & Hx & Hf)|(x & Hx & Hf)]|(i & Hi & Hf)].
    + apply in_seq in Hx. apply negb_false_iff, andb_true_iff in Hf as [Hne Hh].
      apply negb_true_iff, Nat.eqb_neq in Hne. apply holds_true in Hh.
      exists row, x. repeat split; [done|lia|congruence|tauto|done].
    + apply in_seq in Hx. apply negb_false_iff, andb_true_iff in Hf as [Hne Hh].
      apply negb_true_iff, Nat.eqb_neq in Hne. apply holds_true in Hh.
      exists x, col. repeat split; [lia|done|congruence|tauto|done].
    + apply forallb_false in Hf as (j & Hj & Hf). apply in_seq in Hi, Hj.
      apply negb_false_iff, andb_true_iff in Hf as [Hne Hh]. apply holds_true in Hh.
      apply orb_true_iff in Hne.
      rewrite !negb_true_iff, !Nat.eqb_neq in Hne.
      exists (row - row mod 3 + i), (col - col mod 3 + j).
      repeat split; [dlia|dlia| |right; right; split; dlia|done].
      rewrite pair_equal_spec. dlia.
  - intros (r' & c' & Hr' & Hc' & [Hne Hshare] & Hv). apply holds_true in Hv.
    destruct (decide (r' = row)) as [->|Hr].
    { left; left. exists c'. split; [apply in_seq; lia|].
      apply negb_false_iff, andb_true_iff. split; [|done].
      apply negb_true_iff, Nat.eqb_neq. congruence. }
    destruct (decide (c' = col)) as [->|Hc].
    { left; right. exists r'. split; [apply in_seq; lia|].
      apply negb_false_iff, andb_true_iff. split; [|done].
      by apply negb_true_iff, Nat.eqb_neq. }
    destruct Hshare as [?|[?|[Hbr Hbc]]]; [done..|].
    right. exists (r' mod 3). split; [apply in_seq; dlia|].
    apply forallb_false. exists (c' mod 3). split; [apply in_seq; dlia|].
    replace (row - row mod 3 + r' mod 3) with r' by dlia.
    replace (col - col mod 3 + c' mod 3) with c' by dlia.
    apply negb_false_iff, andb_true_iff. split; [|done].
    apply orb_true_iff. left. by apply negb_true_iff, Nat.eqb_neq.
Qed.

Lemma checkPlacementB_false g row col v :
  row < 9 -> col < 9 ->
  (GameLogicB.checkPlacement g row col v = false <-> conflictAt g row col v).
Proof.
  intros Hrow Hcol. unfold GameLogicB.checkPlacement, conflictAt, peers, sameBox.
  cbv zeta. rewrite !andb_false_iff, !forallb_false. split.
  - intros [[(x & Hx & Hf)|(x & Hx & Hf)]|(i & Hi & Hf)].
    + apply in_seq in Hx. apply negb_false_iff, andb_true_iff in Hf as [Hne Hh].
      apply negb_true_iff, Nat.eqb_neq in Hne. apply holds_true in Hh.
      exists row, x. repeat split; [done|lia|congruence|tauto|done].
    + apply in_seq in Hx. apply negb_false_iff, andb_true_iff in Hf as [Hne Hh].
      apply negb_true_iff, Nat.eqb_neq in Hne. apply holds_true in Hh.
      exists x, col. repeat split; [lia|done|congruence|tauto|done].
    + apply forallb_false in Hf as (j & Hj & Hf). apply in_seq in Hi, Hj.
      apply negb_false_iff in Hf. rewrite !andb_true_iff in Hf.
      destruct Hf as [[Hr Hc] Hh]. apply holds_true in Hh.
      apply negb_true_iff, Nat.eqb_neq in Hr, Hc.
      exists (row / 3 * 3 + i), (col / 3 * 3 + j).
      repeat split; [dlia|dlia| |right; right; split; dlia|done].
      rewrite pair_equal_spec. tauto.
  - intros (r' & c' & Hr' & Hc' & [Hne Hshare] & Hv). apply holds_true in Hv.
    destruct (decide (r' = row)) as [->|Hr].
    { left; left. exists c'. split; [apply in_seq; lia|].
      apply negb_false_iff, andb_true_iff. split; [|done].
      apply negb_true_iff, Nat.eqb_neq. congruence. }
    destruct (decide (c' = col)) as [->|Hc].
    { left; right. exists r'. split; [apply in_seq; lia|].
      apply negb_false_iff, andb_true_iff. split; [|done].
      by apply negb_true_iff, Nat.eqb_neq. }
    destruct Hshare as [?|[?|[Hbr Hbc]]]; [done..|].
    right. exists (r' mod 3). split; [apply in_seq; dlia|].
    apply forallb_false. exists (c' mod 3). split; [apply in_seq; dlia|].
    replace (row / 3 * 3 + r' mod 3) with r' by dlia.
    replace (col / 3 * 3 + c' mod 3) with c' by dlia.
    apply negb_false_iff. rewrite !andb_true_iff. repeat split; [..|done].
    + by apply negb_true_iff, Nat.eqb_neq.
    + by apply negb_true_iff, Nat.eqb_neq.
Qed.

Lemma checkPlacement_true g row col v :
  row < 9 -> col < 9 ->
  (GameLogic.checkPlacement g row col v = true <-> ~ conflictAt g row col v).
Proof.
  intros Hr Hc. rewrite <- (checkPlacement_false g row col v Hr Hc).
  by destruct (GameLogic.checkPlacement g row col v).
Qed.

Lemma checkPlacementB_true g row col v :
  row < 9 -> col < 9 ->
  (GameLogicB.checkPlacement g row col v = true <-> ~ conflictAt g row col v).
Proof.
  intros Hr Hc. rewrite <- (checkPlacementB_false g row col v Hr Hc).
  by destruct (GameLogicB.checkPlacement g row col v).
Qed.

(** [isValid] does not skip the cell itself. *)
Lemma isValid_false g row col v :
  row < 9 -> col < 9 ->
  (GameLogic.isValid g row col v = false
   <-> valueAt g row col = Some v \/ conflictAt g row col v).
Proof.
  intros Hrow Hcol. unfold GameLogic.isValid, conflictAt, peers, sameBox.
  cbv zeta. rewrite !andb_false_iff, !forallb_false. split.
  - intros [[(x & Hx & Hf)|(x & Hx & Hf)]|(i & Hi & Hf)].
    + apply in_seq in Hx. apply negb_false_iff, holds_true in Hf.
      destruct (decide (x = col)) as [->|Hne]; [by left|right].
      exists row, x. repeat split; [done|lia|congruence|tauto|done].
    + apply in_seq in Hx. apply negb_false_iff, holds_true in Hf.
      destruct (decide (x = row)) as [->|Hne]; [by left|right].
      exists x, col. repeat split; [lia|done|congruence|tauto|done].
    + apply forallb_false in Hf as (j & Hj & Hf). apply in_seq in Hi, Hj.
      apply negb_false_iff, holds_true in Hf.
      destruct (decide ((i + (row - row mod 3), j + (col - col mod 3)) = (row, col)))
        as [Heq|Hne].
      { apply pair_equal_spec in Heq as [H1 H2]. left. by rewrite H1, H2 in Hf. }
      right. exists (i + (row - row mod 3)), (j + (col - col mod 3)).
      repeat split; [dlia|dlia|done|right; right; split; dlia|done].
  - intros [Hv|(r' & c' & Hr' & Hc' & [Hne Hshare] & Hv)]; apply holds_true in Hv.
    { left; left. exists col. split; [apply in_seq; lia|]. by apply negb_false_iff. }
    destruct Hshare as [->|[->|[Hbr Hbc]]].
    + left; left. exists c'. split; [apply in_seq; lia|]. by apply negb_false_iff.
    + left; right. exists r'. split; [apply in_seq; lia|]. by apply negb_false_iff.
    + right. exists (r' mod 3). split; [apply in_seq; dlia|].
      apply forallb_false. exists (c' mod 3). split; [apply in_seq; dlia|].
      replace (r' mod 3 + (row - row mod 3)) with r' by dlia.
      replace (c' mod 3 + (col - col mod 3)) with c' by dlia.
      by apply negb_false_iff.
Qed.

(** On an empty cell the two checks agree. *)
Lemma isValid_true_empty g row col v :
  row < 9 -> col < 9 -> valueAt g row col = None ->
  (GameLogic.isValid g row col v = true <-> ~ conflictAt g row col v).
Proof.
  intros Hr Hc Hv. pose proof (isValid_false g row col v Hr Hc) as H.
  rewrite Hv in H. destruct (GameLogic.isValid g row col v); split; try done.
  - intros _ Hcf. destruct H as [_ H]. by specialize (H (or_intror Hcf)).
  - intros Hn. destruct H as [H _]. destruct (H eq_refl) as [?|?]; done.
Qed.

(** ** Backtracking undoes its assignments *)

Section Restore.
Variables (g : Grid) (row col : nat).
Hypothesis Hshape : shape9 g.
Hypothesis Hrow : row < 9.
Hypothesis Hcol : col < 9.
Hypothesis Hempty : valueAt g row col = None.

Lemma countLoop_restores rec limit nums acc :
  (forall v l, exists n, rec (setValue g row col (Some v)) l = Some (n, setValue g row col (Some v))) ->
  exists n, GameLogic.countLoop rec row col limit nums g acc = Some (n, g).
Proof using Hshape Hrow Hcol Hempty.
  intros Hrec. revert acc. induction nums as [|num rest IH]; intros acc; simpl.
  - by eexists.
  - destruct (GameLogic.isValid g row col num); [|apply IH].
    destruct (Hrec num (limit - acc)%Z) as [n ->].
    rewrite setValue_undo by done.
    destruct (limit <=? acc + n)%Z; [by eexists|apply IH].
Qed.

Lemma tryNumbers_restores rec nums k :
  (forall v k, exists b g' k',
      rec (setValue g row col (Some v)) k = Some (b, g', k') /\ (b = false -> g' = setValue g row col (Some v))) ->
  exists b g' k',
    GameLogic.tryNumbers rec row col nums g k = Some (b, g', k')
    /\ (b = false -> g' = g).
Proof using Hshape Hrow Hcol Hempty.
  intros Hrec. revert k. induction nums as [|num rest IH]; intros k; simpl.
  - by exists false, g, k.
  - destruct (GameLogic.isValid g row col num); [|apply IH].
    destruct (Hrec num k) as (b & g' & k' & -> & Hb). destruct b.
    + by exists true, g', k'.
    + rewrite (Hb eq_refl). rewrite setValue_undo by done. apply IH.
Qed.

Lemma tryColours_restores check rec nums :
  (forall v, exists b g', rec (setValue g row col (Some v)) = Some (b, g') /\ (b = false -> g' = setValue g row col (Some v))) ->
  exists b g',
    tryColours check rec row col nums g = Some (b, g') /\ (b = false -> g' = g).
Proof using Hshape Hrow Hcol Hempty.
  intros Hrec. induction nums as [|num rest IH]; simpl.
  - by exists false, g.
  - destruct (check g row col num); [|apply IH].
    destruct (Hrec num) as (b & g' & -> & Hb). destruct b.
    + by exists true, g'.
    + rewrite (Hb eq_refl). rewrite setValue_undo by done. apply IH.
Qed.

Lemma findLoop_restores rec nums sols :
  (forall v sols, exists sols', rec (setValue g row col (Some v)) sols = Some (sols', setValue g row col (Some v))) ->
  exists sols', GameLogicB.findLoop rec row col nums g sols = Some (sols', g).
Proof using Hshape Hrow Hcol Hempty.
  intros Hrec. revert sols. induction nums as [|num rest IH]; intros sols; simpl.
  - by eexists.
  - destruct (GameLogicB.checkPlacement g row col num); [|apply IH].
    destruct (Hrec num sols) as [sols' ->].
    rewrite setValue_undo by done.
    destruct (1 <? length sols'); [by eexists|apply IH].
Qed.
End Restore.

(** One unfolding of each search. *)
Lemma countSolutions_S fuel g limit :
  GameLogic.countSolutions (S fuel) g limit
  = match findEmptyCell g with
    | None => Some (1%Z, g)
    | Some (row, col) =>
        GameLogic.countLoop (GameLogic.countSolutions fuel) row col limit (seq 0 9) g 0%Z
    end.
Proof. reflexivity. Qed.

Lemma generateSolution_S rnd fuel g k :
  GameLogic.generateSolution rnd (S fuel) g k
  = match findEmptyCell g with
    | None => Some (true, g, k)
    | Some (row, col) =>
        let '(numbers, k1) := shuffle rnd (seq 0 9) k in
        GameLogic.tryNumbers (GameLogic.generateSolution rnd fuel) row col numbers g k1
    end.
Proof. reflexivity. Qed.

Lemma solveOne_S check fuel g :
  solveOne check (S fuel) g
  = match findEmptyCell g with
    | None => Some (true, g)
    | Some (row, col) => tryColours check (solveOne check fuel) row col (seq 0 9) g
    end.
Proof. reflexivity. Qed.

Lemma findSolutions_S fuel g sols :
  GameLogicB.findSolutions (S fuel) g sols
  = match findEmptyCell g with
    | None => Some (sols ++ [g], g)
    | Some (row, col) =>
        GameLogicB.findLoop (GameLogicB.findSolutions fuel) row col (seq 0 9) g sols
    end.
Proof. reflexivity. Qed.

Lemma countSolutions_restores fuel g limit :
  shape9 g -> emptyCount g < fuel ->
  exists n, GameLogic.countSolutions fuel g limit = Some (n, g).
Proof.
  revert g limit. induction fuel as [|fuel IH]; intros g limit Hg Hfuel; [lia|].
  rewrite countSolutions_S. destruct (findEmptyCell g) as [[row col]|] eqn:Hfind; [|by eexists].
  pose proof (emptyCount_fill g row col) as Hcount.
  apply findEmptyCell_Some in Hfind as Hcell. destruct Hcell as (Hr & Hc & Hv & _).
  apply countLoop_restores; [done..|]. intros v l. apply IH.
  - by apply shape9_setValue.
  - specialize (Hcount v Hg Hfind). lia.
Qed.

Lemma generateSolution_restores rnd fuel g k :
  shape9 g -> emptyCount g < fuel ->
  exists b g' k',
    GameLogic.generateSolution rnd fuel g k = Some (b, g', k')
    /\ (b = false -> g' = g).
Proof.
  revert g k. induction fuel as [|fuel IH]; intros g k Hg Hfuel; [lia|].
  rewrite generateSolution_S. destruct (findEmptyCell g) as [[row col]|] eqn:Hfind; [|by exists true, g, k].
  pose proof (emptyCount_fill g row col) as Hcount.
  apply findEmptyCell_Some in Hfind as Hcell. destruct Hcell as (Hr & Hc & Hv & _).
  destruct (shuffle rnd (seq 0 9) k) as [numbers k1].
  apply tryNumbers_restores; [done..|]. intros v k2. apply IH.
  - by apply shape9_setValue.
  - specialize (Hcount v Hg Hfind). lia.
Qed.

Lemma solveOne_restores check fuel g :
  shape9 g -> emptyCount g < fuel ->
  exists b g', solveOne check fuel g = Some (b, g') /\ (b = false -> g' = g).
Proof.
  revert g. induction fuel as [|fuel IH]; intros g Hg Hfuel; [lia|].
  rewrite solveOne_S. destruct (findEmptyCell g) as [[row col]|] eqn:Hfind; [|by exists true, g].
  pose proof (emptyCount_fill g row col) as Hcount.
  apply findEmptyCell_Some in Hfind as Hcell. destruct Hcell as (Hr & Hc & Hv & _).
  apply tryColours_restores; [done..|]. intros v. apply IH.
  - by apply shape9_setValue.
  - specialize (Hcount v Hg Hfind). lia.
Qed.

Lemma findSolutions_restores fuel g sols :
  shape9 g -> emptyCount g < fuel ->
  exists sols', GameLogicB.findSolutions fuel g sols = Some (sols', g).
Proof.
  revert g sols. induction fuel as [|fuel IH]; intros g sols Hg Hfuel; [lia|].
  rewrite findSolutions_S. destruct (findEmptyCell g) as [[row col]|] eqn:Hfind; [|by eexists].
  pose proof (emptyCount_fill g row col) as Hcount.
  apply findEmptyCell_Some in Hfind as Hcell. destruct Hcell as (Hr & Hc & Hv & _).
  apply findLoop_restores; [done..|]. intros v sols1. apply IH.
  - by apply shape9_setValue.
  - specialize (Hcount v Hg Hfind). lia.
Qed.

Lemma searchDepth_enough g : emptyCount g < searchDepth.
Proof. pose proof (emptyCount_le_81 g). unfold searchDepth. lia. Qed.

(** ** The constraint, three ways *)

Lemma pigeonhole9 (l : list nat) :
  NoDup l -> length l = 9 -> (forall x, x ∈ l -> x < 9) ->
  forall v, v < 9 -> v ∈ l.
Proof.
  intros Hnd Hlen Hlt v Hv. apply list_elem_of_In.
  apply (NoDup_length_incl (l := l) (l' := seq 0 9)).
  - by apply NoDup_ListNoDup.
  - rewrite length_seq. lia.
  - intros x Hx. apply in_seq. apply list_elem_of_In, Hlt in Hx. lia.
  - apply in_seq. lia.
Qed.

Lemma NoDup_fmap_seq {A} (f : nat -> A) n :
  NoDup (f <$> seq 0 n) <-> forall j j', j < n -> j' < n -> f j = f j' -> j = j'.
Proof.
  rewrite NoDup_alt. split.
  - intros H j j' Hj Hj' Heq. apply (H j j' (f j)).
    + by rewrite list_lookup_fmap, lookup_seq_lt.
    + by rewrite list_lookup_fmap, lookup_seq_lt, Heq.
  - intros H i j x. rewrite !list_lookup_fmap.
    destruct (seq 0 n !! i) as [a|] eqn:Ei; [|done].
    destruct (seq 0 n !! j) as [b|] eqn:Ej; [|done].
    apply lookup_seq in Ei as [-> Hi], Ej as [-> Hj]. simpl.
    intros [= <-] [= Heq]. apply H; [lia..|done].
Qed.

Lemma remove_dups_length {A} `{EqDecision A} (l : list A) :
  length (remove_dups l) <= length l.
Proof. induction l as [|x l IH]; simpl; [lia|]. case_decide; simpl; lia. Qed.

Lemma remove_dups_length_eq {A} `{EqDecision A} (l : list A) :
  length (remove_dups l) = length l <-> NoDup l.
Proof.
  induction l as [|x l IH]; simpl.
  - split; [constructor|done].
  - pose proof (remove_dups_length l). rewrite NoDup_cons. case_decide; simpl.
    + split; [lia|tauto].
    + rewrite <- IH. split; [intros; split; [done|lia]|intros [_ ?]; lia].
Qed.

Lemma setSize_9 (l : list (option nat)) :
  length l = 9 -> (GameLogic.setSize l =? 9) = true <-> NoDup l.
Proof.
  intros Hlen. unfold GameLogic.setSize.
  rewrite Nat.eqb_eq, <- Hlen. apply remove_dups_length_eq.
Qed.

Lemma checkWin_true g :
  GameLogic.checkWin g = true <-> full g /\ housesDistinct g.
Proof.
  unfold GameLogic.checkWin, housesDistinct.
  rewrite andb_true_iff, !forallb_forall.
  match goal with |- ?A /\ ?B <-> ?C /\ ?D =>
    enough ((A <-> C) /\ (B <-> D)) by tauto end.
  split.
  - unfold full. split.
    + intros H r c Hr Hc Hv. specialize (H (r, c)). simpl in H.
      unfold isEmptyAt in H. rewrite Hv in H. apply negb_true_iff in H; [done|].
      by apply in_rowMajor.
    + intros H [r c] Hin. apply in_rowMajor in Hin as [Hr Hc]. simpl.
      unfold isEmptyAt. specialize (H r c Hr Hc). by destruct (valueAt g r c).
  - split; intros H i Hi.
    + specialize (H i). rewrite in_seq in H. specialize (H ltac:(lia)).
      apply negb_true_iff in H. rewrite !orb_false_iff, !negb_false_iff in H.
      destruct H as [[H1 H2] H3].
      rewrite setSize_9 in H1, H2, H3
        by (unfold GameLogic.rowValues, GameLogic.colValues, GameLogic.boxValues;
            by rewrite length_fmap, length_seq).
      done.
    + apply in_seq in Hi. destruct (H i ltac:(lia)) as (H1 & H2 & H3).
      apply negb_true_iff. rewrite !orb_false_iff, !negb_false_iff.
      rewrite !setSize_9
        by (unfold GameLogic.rowValues, GameLogic.colValues, GameLogic.boxValues;
            by rewrite length_fmap, length_seq).
      done.
Qed.

Lemma housesDistinct_noConflict g :
  full g -> (housesDistinct g <-> noConflict g).
Proof.
  intros Hfull. unfold housesDistinct, noConflict, peers, sameBox. split.
  - intros H r c r' c' v Hr Hc Hr' Hc' [Hne Hshare] Hv Hv'.
    rewrite pair_equal_spec in Hne.
    destruct Hshare as [->|[->|[Hbr Hbc]]].
    + destruct (H r Hr) as (H1 & _ & _). unfold GameLogic.rowValues in H1.
      rewrite NoDup_fmap_seq in H1.
      specialize (H1 c c' Hc Hc' ltac:(congruence)). lia.
    + destruct (H c Hc) as (_ & H2 & _). unfold GameLogic.colValues in H2.
      rewrite NoDup_fmap_seq in H2.
      specialize (H2 r r' Hr Hr' ltac:(congruence)). lia.
    + destruct (H (r / 3 * 3 + c / 3) ltac:(dlia)) as (_ & _ & H3).
      unfold GameLogic.boxValues in H3. rewrite NoDup_fmap_seq in H3.
      specialize (H3 (r mod 3 * 3 + c mod 3) (r' mod 3 * 3 + c' mod 3)
                     ltac:(dlia) ltac:(dlia)).
      replace ((r / 3 * 3 + c / 3) / 3 * 3 + (r mod 3 * 3 + c mod 3) / 3)
        with r in H3 by dlia.
      replace ((r / 3 * 3 + c / 3) mod 3 * 3 + (r mod 3 * 3 + c mod 3) mod 3)
        with c in H3 by dlia.
      replace ((r / 3 * 3 + c / 3) / 3 * 3 + (r' mod 3 * 3 + c' mod 3) / 3)
        with r' in H3 by dlia.
      replace ((r / 3 * 3 + c / 3) mod 3 * 3 + (r' mod 3 * 3 + c' mod 3) mod 3)
        with c' in H3 by dlia.
      specialize (H3 ltac:(congruence)). dlia.
  - intros H i Hi.
    assert (forall r c r' c', r < 9 -> c < 9 -> r' < 9 -> c' < 9 ->
              (r' = r \/ c' = c \/ r' / 3 = r / 3 /\ c' / 3 = c / 3) ->
              valueAt g r c = valueAt g r' c' -> r' = r /\ c' = c) as Hinj.
    { intros r c r' c' Hr Hc Hr' Hc' Hshare Heq.
      destruct (decide ((r', c') = (r, c))) as [Hpq|Hpq];
        [by apply pair_equal_spec in Hpq|].
      destruct (valueAt g r c) as [v|] eqn:Hv; [|by destruct (Hfull r c Hr Hc)].
      by destruct (H r c r' c' v Hr Hc Hr' Hc' (conj Hpq Hshare) Hv). }
    unfold GameLogic.rowValues, GameLogic.colValues, GameLogic.boxValues.
    rewrite !NoDup_fmap_seq. repeat split.
    + intros j j' Hj Hj' Heq.
      by destruct (Hinj i j i j' Hi Hj Hi Hj' ltac:(tauto) Heq).
    + intros j j' Hj Hj' Heq.
      by destruct (Hinj j i j' i Hj Hi Hj' Hi ltac:(tauto) Heq).
    + intros j j' Hj Hj' Heq.
      apply Hinj in Heq; [dlia|dlia..].
Qed.

(** Each colour exactly once in every house is the same as: every cell holds
    a colour and no two cells of a house hold the same one. *)

Lemma peers_common_house r c r' c' :
  r < 9 -> c < 9 -> peers r c r' c' ->
  exists h, isHouse h /\ inHouse h r c /\ inHouse h r' c'.
Proof.
  intros Hr Hc [_ [->|[->|[Hbr Hbc]]]].
  - by exists (RowH r).
  - by exists (ColH c).
  - exists (BoxH (r / 3) (c / 3)). cbn [isHouse inHouse].
    split; [split; dlia|]. split; [done|]. by split.
Qed.

Lemma same_house_peers h r c r' c' :
  inHouse h r c -> inHouse h r' c' -> (r', c') <> (r, c) -> peers r c r' c'.
Proof.
  intros H1 H2 Hne. split; [done|]. unfold sameBox.
  destruct h as [i|i|br bc]; cbn [inHouse] in *; [left|right; left|right; right]; lia.
Qed.

Lemma houseCell_in h j :
  isHouse h -> j < 9 ->
  (houseCell h j).1 < 9 /\ (houseCell h j).2 < 9
  /\ inHouse h (houseCell h j).1 (houseCell h j).2.
Proof.
  destruct h as [i|i|br bc]; cbn [isHouse inHouse houseCell fst snd];
    intros Hh Hj; repeat split; dlia.
Qed.

Lemma houseCell_inj h j j' :
  j < 9 -> j' < 9 -> houseCell h j = houseCell h j' -> j = j'.
Proof.
  destruct h as [i|i|br bc]; cbn [houseCell]; intros Hj Hj'; rewrite pair_equal_spec; dlia.
Qed.

Lemma houseCell_surj h r c :
  isHouse h -> r < 9 -> c < 9 -> inHouse h r c ->
  exists j, j < 9 /\ houseCell h j = (r, c).
Proof.
  destruct h as [i|i|br bc]; cbn [isHouse inHouse houseCell]; intros Hh Hr Hc Hin.
  - exists c. by subst.
  - exists r. by subst.
  - exists (r mod 3 * 3 + c mod 3). split; [dlia|]. apply pair_equal_spec. dlia.
Qed.

Lemma choose_list {A} (P : nat -> A -> Prop) n :
  (forall v, v < n -> exists c, P v c) ->
  exists l, length l = n /\ forall v, v < n -> exists c, l !! v = Some c /\ P v c.
Proof.
  induction n as [|n IH]; intros H.
  - exists []. split; [done|]. intros v Hv. lia.
  - destruct IH as (l & Hlen & Hl); [intros v Hv; apply H; lia|].
    destruct (H n ltac:(lia)) as [c Hc]. exists (l ++ [c]). split.
    + rewrite length_app. simpl. lia.
    + intros v Hv. destruct (decide (v = n)) as [->|Hne].
      * exists c. split; [|done]. rewrite lookup_app_r by lia.
        by replace (n - length l) with 0 by lia.
      * destruct (Hl v ltac:(lia)) as (c' & Hc' & HP). exists c'. split; [|done].
        by rewrite lookup_app_l by lia.
Qed.

Lemma satisfies_filled g r c :
  satisfiesConstraints g -> r < 9 -> c < 9 ->
  exists v, v < 9 /\ valueAt g r c = Some v.
Proof.
  intros Hsat Hr Hc.
  destruct (choose_list (fun v c => c < 9 /\ valueAt g r c = Some v) 9)
    as (l & Hlen & Hl).
  { intros v Hv. destruct (Hsat (RowH r) v Hr Hv) as (r0 & c0 & (_ & Hc0 & Hin & Hval) & _).
    simpl in Hin. subst r0. by exists c0. }
  assert (c ∈ l) as Hin.
  { apply pigeonhole9; [|done| |done].
    - apply NoDup_alt. intros i j x Hi Hj.
      pose proof (lookup_lt_Some _ _ _ Hi) as Hi'.
      pose proof (lookup_lt_Some _ _ _ Hj) as Hj'.
      destruct (Hl i ltac:(lia)) as (ci & Hci & _ & Hvi).
      destruct (Hl j ltac:(lia)) as (cj & Hcj & _ & Hvj).
      congruence.
    - intros x Hx. apply list_elem_of_lookup in Hx as [i Hi].
      pose proof (lookup_lt_Some _ _ _ Hi) as Hi'.
      destruct (Hl i ltac:(lia)) as (ci & Hci & Hlt & _). congruence. }
  apply list_elem_of_lookup in Hin as [v Hv].
  pose proof (lookup_lt_Some _ _ _ Hv) as Hv'.
  destruct (Hl v ltac:(lia)) as (c' & Hc' & _ & Hval).
  exists v. split; [lia|congruence].
Qed.

Lemma satisfies_iff g :
  satisfiesConstraints g <-> full g /\ coloursOk g /\ noConflict g.
Proof.
  split.
  - intros Hsat.
    assert (coloursOk g) as Hcol.
    { intros r c v Hr Hc Hv.
      destruct (satisfies_filled g r c Hsat Hr Hc) as (w & Hw & Hval). congruence. }
    repeat split; [|done|].
    + intros r c Hr Hc.
      destruct (satisfies_filled g r c Hsat Hr Hc) as (w & Hw & Hval). congruence.
    + intros r c r' c' v Hr Hc Hr' Hc' Hpeers Hv Hv'.
      destruct (peers_common_house r c r' c' Hr Hc Hpeers) as (h & Hh & Hin & Hin').
      destruct (Hsat h v Hh (Hcol r c v Hr Hc Hv)) as (r0 & c0 & _ & Huniq).
      destruct (Huniq r c Hr Hc Hin Hv) as [-> ->].
      destruct (Huniq r' c' Hr' Hc' Hin' Hv') as [-> ->].
      by destruct Hpeers as [Hne _].
  - intros (Hfull & Hcol & Hnc) h v Hh Hv.
    set (val := fun j => default 0 (valueAt g (houseCell h j).1 (houseCell h j).2)).
    assert (forall j, j < 9 ->
              valueAt g (houseCell h j).1 (houseCell h j).2 = Some (val j)) as Hval.
    { intros j Hj. destruct (houseCell_in h j Hh Hj) as (Hr & Hc & _).
      unfold val. specialize (Hfull _ _ Hr Hc). by destruct (valueAt g _ _). }
    assert (v ∈ val <$> seq 0 9) as Hin.
    { apply pigeonhole9; [|by rewrite length_fmap, length_seq| |done].
      - apply NoDup_fmap_seq. intros j j' Hj Hj' Heq.
        destruct (decide (houseCell h j' = houseCell h j)) as [Hsame|Hdiff];
          [symmetry; by apply (houseCell_inj h)|].
        destruct (houseCell_in h j Hh Hj) as (Hr & Hc & Hin).
        destruct (houseCell_in h j' Hh Hj') as (Hr' & Hc' & Hin').
        pose proof (Hval j Hj) as Hvj. pose proof (Hval j' Hj') as Hvj'.
        destruct (houseCell h j) as [r c], (houseCell h j') as [r' c'].
        cbn [fst snd] in *. exfalso.
        apply (Hnc r c r' c' (val j) Hr Hc Hr' Hc'
                 (same_house_peers h r c r' c' Hin Hin' Hdiff)); [done|].
        by rewrite Heq.
      - intros x Hx. apply list_elem_of_fmap in Hx as (j & -> & Hj).
        apply elem_of_seq in Hj. destruct (houseCell_in h j Hh ltac:(lia)) as (Hr & Hc & _).
        apply (Hcol _ _ _ Hr Hc). apply Hval. lia. }
    apply list_elem_of_fmap in Hin as (j & -> & Hj). apply elem_of_seq in Hj.
    destruct (houseCell_in h j Hh ltac:(lia)) as (Hr & Hc & Hin).
    exists (houseCell h j).1, (houseCell h j).2.
    split; [repeat split; [done..|apply Hval; lia]|].
    intros r' c' Hr' Hc' Hin' Hv'.
    destruct (decide ((r', c') = houseCell h j)) as [<-|Hne]; [done|].
    exfalso. apply (Hnc (houseCell h j).1 (houseCell h j).2 r' c' (val j) Hr Hc Hr' Hc').
    + apply (same_house_peers h); [done..|]. by destruct (houseCell h j).
    + apply Hval. lia.
    + done.
Qed.

(** [checkWin] of lib/game-logic.ts decides the constraint on grids that hold
    colours only. *)
Lemma checkWin_satisfies g :
  coloursOk g ->
  (GameLogic.checkWin g = true <-> full g /\ satisfiesConstraints g).
Proof.
  intros Hcol. rewrite checkWin_true, satisfies_iff. split.
  - intros [Hfull Hd]. apply housesDistinct_noConflict in Hd; tauto.
  - intros (Hfull & _ & _ & Hnc). split; [done|]. by apply housesDistinct_noConflict.
Qed.

(** ** Enumerating the completions of a grid *)

Lemma coloursOkb_true g : coloursOkb g = true <-> coloursOk g.
Proof.
  unfold coloursOkb, coloursOk. rewrite forallb_forall. split.
  - intros H r c v Hr Hc Hv. specialize (H (r, c)). simpl in H. rewrite Hv in H.
    apply Nat.ltb_lt, H. by apply in_rowMajor.
  - intros H [r c] Hin. apply in_rowMajor in Hin as [Hr Hc]. simpl.
    destruct (valueAt g r c) as [v|] eqn:Hv; [|done]. apply Nat.ltb_lt. eauto.
Qed.

Lemma solvedb_true g : solvedb g = true <-> satisfiesConstraints g.
Proof.
  unfold solvedb. rewrite andb_true_iff, coloursOkb_true. split.
  - intros [Hwin Hcol]. by apply checkWin_satisfies in Hwin as [_ ?].
  - intros Hsat. pose proof Hsat as Hsat'. apply satisfies_iff in Hsat' as (Hfull & Hcol & _).
    split; [|done]. by apply checkWin_satisfies.
Qed.

Lemma elem_of_fillCells cells : forall g s,
  shape9 g -> NoDup cells -> (forall r c, (r, c) ∈ cells -> r < 9 /\ c < 9) ->
  (s ∈ fillCells cells g <->
   shape9 s
   /\ (forall r c, r < 9 -> c < 9 -> fixedAt s r c = fixedAt g r c)
   /\ (forall r c, r < 9 -> c < 9 -> (r, c) ∉ cells -> valueAt s r c = valueAt g r c)
   /\ (forall r c, (r, c) ∈ cells -> exists v, v < 9 /\ valueAt s r c = Some v)).
Proof.
  induction cells as [|[r c] rest IH]; intros g s Hg Hnd Hrange.
  - simpl. rewrite list_elem_of_singleton. split.
    + intros ->. split; [done|]. split; [done|]. split; [done|].
      intros r c Hin. by apply not_elem_of_nil in Hin.
    + intros (Hs & Hfix & Hval & _). apply grid_ext_fields; [done..|].
      intros r c Hr Hc. split; [apply Hval; [done..|apply not_elem_of_nil]|by apply Hfix].
  - apply NoDup_cons in Hnd as [Hnotin Hnd].
    destruct (Hrange r c ltac:(left)) as [Hr Hc].
    cbn [fillCells]. rewrite list_elem_of_bind. split.
    + intros (v & Hin & Hv). apply elem_of_seq in Hv.
      apply IH in Hin as (Hs & Hfix & Hval & Hnew);
        [|by apply shape9_setValue|done|intros; apply Hrange; by right].
      split; [done|]. split; [|split].
      * intros r' c' Hr' Hc'. by rewrite Hfix, fixedAt_setValue.
      * intros r' c' Hr' Hc' Hnot. apply not_elem_of_cons in Hnot as [Hne Hnot].
        by rewrite Hval, valueAt_setValue_ne.
      * intros r' c' Hin. apply elem_of_cons in Hin as [[= -> ->]|Hin]; [|by apply Hnew].
        exists v. split; [lia|]. by rewrite Hval, valueAt_setValue_eq.
    + intros (Hs & Hfix & Hval & Hnew).
      destruct (Hnew r c ltac:(left)) as (v & Hv & Hsv).
      exists v. split; [|apply elem_of_seq; lia].
      apply IH; [by apply shape9_setValue|done|intros; apply Hrange; by right|].
      split; [done|]. split; [|split].
      * intros r' c' Hr' Hc'. by rewrite Hfix, fixedAt_setValue.
      * intros r' c' Hr' Hc' Hnot.
        destruct (decide ((r', c') = (r, c))) as [[= -> ->]|Hne].
        -- by rewrite valueAt_setValue_eq.
        -- rewrite valueAt_setValue_ne by done. apply Hval; [done..|].
           by apply not_elem_of_cons.
      * intros r' c' Hin. apply Hnew. by right.
Qed.

Lemma NoDup_fillCells cells : forall g,
  shape9 g -> NoDup cells -> (forall r c, (r, c) ∈ cells -> r < 9 /\ c < 9) ->
  NoDup (fillCells cells g).
Proof.
  induction cells as [|[r c] rest IH]; intros g Hg Hnd Hrange.
  - apply NoDup_singleton.
  - pose proof Hnd as Hnd'. apply NoDup_cons in Hnd' as [Hnotin Hnd'].
    destruct (Hrange r c ltac:(left)) as [Hr Hc].
    cbn [fillCells]. apply NoDup_bind.
    + intros v1 v2 s _ _ H1 H2.
      apply elem_of_fillCells in H1 as (_ & _ & H1 & _);
        [|by apply shape9_setValue|done|intros; apply Hrange; by right].
      apply elem_of_fillCells in H2 as (_ & _ & H2 & _);
        [|by apply shape9_setValue|done|intros; apply Hrange; by right].
      specialize (H1 r c Hr Hc Hnotin). specialize (H2 r c Hr Hc Hnotin).
      rewrite valueAt_setValue_eq in H1, H2 by done. congruence.
    + intros v _. apply IH; [by apply shape9_setValue|done|].
      intros; apply Hrange; by right.
    + apply NoDup_seq.
Qed.

Lemma elem_of_emptyCells g r c :
  (r, c) ∈ emptyCells g <-> r < 9 /\ c < 9 /\ valueAt g r c = None.
Proof.
  unfold emptyCells. rewrite list_elem_of_In, filter_In, in_rowMajor.
  unfold isEmptyAt. cbn [fst snd]. destruct (valueAt g r c); intuition congruence.
Qed.

Lemma NoDup_emptyCells g : NoDup (emptyCells g).
Proof.
  apply NoDup_ListNoDup, List.NoDup_filter, NoDup_ListNoDup, NoDup_rowMajor.
Qed.

Lemma elem_of_completionsOf g s :
  shape9 g -> (s ∈ completionsOf g <-> completion g s).
Proof.
  intros Hg. unfold completionsOf, completion, extends.
  rewrite list_elem_of_In, filter_In, <- list_elem_of_In, solvedb_true.
  rewrite elem_of_fillCells;
    [|done|apply NoDup_emptyCells|intros r c Hin; apply elem_of_emptyCells in Hin; tauto].
  split.
  - intros [(Hs & Hfix & Hval & Hnew) Hsat]. split; [done|]. split; [|done].
    intros r c Hr Hc. split.
    + by apply Hfix.
    + intros v Hv. rewrite Hval; [done..|]. rewrite elem_of_emptyCells. intros (_ & _ & ?).
      congruence.
  - intros (Hs & Hext & Hsat). split; [|done]. split; [done|]. split; [|split].
    + intros r c Hr Hc. by apply Hext.
    + intros r c Hr Hc Hnot. destruct (valueAt g r c) as [v|] eqn:Hv.
      * by apply Hext.
      * exfalso. apply Hnot, elem_of_emptyCells. done.
    + intros r c Hin. apply elem_of_emptyCells in Hin as (Hr & Hc & _).
      by apply satisfies_filled.
Qed.

Lemma NoDup_completionsOf g : shape9 g -> NoDup (completionsOf g).
Proof.
  intros Hg. apply NoDup_ListNoDup, List.NoDup_filter, NoDup_ListNoDup.
  apply NoDup_fillCells; [done|apply NoDup_emptyCells|].
  intros r c Hin; apply elem_of_emptyCells in Hin; tauto.
Qed.

(** The number of completions exists and is unique. *)
Lemma numCompletions_completionsOf g :
  shape9 g -> numCompletions g (length (completionsOf g)).
Proof.
  intros Hg. exists (completionsOf g). split; [by apply NoDup_completionsOf|].
  split; [|done]. intros s. by apply elem_of_completionsOf.
Qed.

Lemma numCompletions_unique g n :
  shape9 g -> numCompletions g n -> n = length (completionsOf g).
Proof.
  intros Hg (l & Hnd & Hl & <-). apply Permutation_length, NoDup_Permutation.
  - done.
  - by apply NoDup_completionsOf.
  - intros s. by rewrite Hl, elem_of_completionsOf.
Qed.

(** ** The counting solver counts completions *)

Lemma peers_sym r c r' c' : peers r c r' c' -> peers r' c' r c.
Proof.
  unfold peers, sameBox. rewrite !pair_equal_spec. intros [Hne Hs].
  split; [intros [-> ->]; tauto|]. intuition congruence.
Qed.

Lemma coloursOk_setValue g r c v :
  v < 9 -> coloursOk g -> coloursOk (setValue g r c (Some v)).
Proof.
  intros Hv Hcol r' c' w Hr' Hc'. rewrite valueAt_setValue.
  case_decide; [|by apply Hcol]. destruct (cellAt g r c); [|done]. by intros [= <-].
Qed.

Lemma coloursOk_clear g r c : coloursOk g -> coloursOk (setValue g r c None).
Proof.
  intros Hcol r' c' w Hr' Hc'. rewrite valueAt_setValue.
  case_decide; [|by apply Hcol]. by destruct (cellAt g r c).
Qed.

Lemma noConflict_setValue g r c v :
  shape9 g -> r < 9 -> c < 9 -> noConflict g -> ~ conflictAt g r c v ->
  noConflict (setValue g r c (Some v)).
Proof.
  intros Hg Hr Hc Hnc Hfree r1 c1 r2 c2 w Hr1 Hc1 Hr2 Hc2 Hpeers.
  destruct (decide ((r1, c1) = (r, c))) as [[= -> ->]|Hne1].
  - rewrite valueAt_setValue_eq by done. intros [= <-].
    destruct Hpeers as [Hne Hs]. rewrite valueAt_setValue_ne by done.
    intros Hv2. apply Hfree. by exists r2, c2.
  - rewrite (valueAt_setValue_ne _ _ _ _ r1 c1) by done. intros Hv1.
    destruct (decide ((r2, c2) = (r, c))) as [[= -> ->]|Hne2].
    + rewrite valueAt_setValue_eq by done. intros [= <-].
      apply Hfree. exists r1, c1. split; [done|]. split; [done|].
      split; [by apply peers_sym|done].
    + rewrite valueAt_setValue_ne by done. by apply (Hnc r1 c1 r2 c2 w).
Qed.

Lemma noConflict_clear g r c : noConflict g -> noConflict (setValue g r c None).
Proof.
  intros Hnc r1 c1 r2 c2 w Hr1 Hc1 Hr2 Hc2 Hpeers. rewrite !valueAt_setValue.
  repeat case_decide; try (by destruct (cellAt g r c)). by apply Hnc.
Qed.

Lemma conflict_no_completion g r c v s :
  shape9 g -> r < 9 -> c < 9 -> conflictAt g r c v ->
  ~ completion (setValue g r c (Some v)) s.
Proof.
  intros Hg Hr Hc (r' & c' & Hr' & Hc' & Hpeers & Hv') (Hs & Hext & Hsat).
  apply satisfies_iff in Hsat as (_ & _ & Hnc).
  apply (Hnc r c r' c' v Hr Hc Hr' Hc' Hpeers).
  - apply Hext; [done..|]. by rewrite valueAt_setValue_eq.
  - apply Hext; [done..|]. destruct Hpeers as [Hne _]. by rewrite valueAt_setValue_ne.
Qed.

Lemma filter_bind {A B} (f : B -> bool) (k : A -> list B) (l : list A) :
  List.filter f (l ≫= k) = l ≫= (fun x => List.filter f (k x)).
Proof.
  induction l as [|x l IH]; [done|]. by rewrite !bind_cons, List.filter_app, IH.
Qed.

Lemma completionsOf_full g :
  full g -> completionsOf g = if solvedb g then [g] else [].
Proof. intros Hfull. unfold completionsOf. by apply emptyCells_nil in Hfull as ->. Qed.

Lemma completionsOf_split g r c :
  shape9 g -> findEmptyCell g = Some (r, c) ->
  completionsOf g = v ← seq 0 9; completionsOf (setValue g r c (Some v)).
Proof.
  intros Hg Hfind. apply findEmptyCell_Some in Hfind as (Hr & Hc & _ & rest & Hrest).
  unfold completionsOf. rewrite Hrest. cbn [fillCells]. rewrite filter_bind.
  apply list_bind_ext; [|done]. intros v. by rewrite (emptyCells_fill g r c v rest).
Qed.

Section CountLoop.
Variables (g : Grid) (row col : nat) (limit : Z)
          (rec : Grid -> Z -> option (Z * Grid)).
Hypothesis Hshape : shape9 g.
Hypothesis Hrow : row < 9.
Hypothesis Hcol : col < 9.
Hypothesis Hempty : valueAt g row col = None.
Hypothesis Hrec : forall v l,
    v < 9 -> GameLogic.isValid g row col v = true -> (1 <= l)%Z ->
    rec (setValue g row col (Some v)) l
    = Some (Z.min (Z.of_nat (length (completionsOf (setValue g row col (Some v))))) l,
            setValue g row col (Some v)).

Lemma countLoop_counts nums acc :
  Forall (fun v => v < 9) nums -> (0 <= acc < limit)%Z ->
  GameLogic.countLoop rec row col limit nums g acc
  = Some (Z.min (acc + Z.of_nat (length (completionsVia g row col nums))) limit, g).
Proof using Hshape Hrow Hcol Hempty Hrec.
  intros Hnums. revert acc.
  induction Hnums as [|num rest Hnum Hnums IH]; intros acc Hacc.
  - simpl. do 2 f_equal. lia.
  - unfold completionsVia. rewrite bind_cons, length_app. fold (completionsVia g row col rest).
    cbn [GameLogic.countLoop].
    destruct (GameLogic.isValid g row col num) eqn:Hvalid.
    + rewrite Hrec by (done || lia). rewrite setValue_undo by done.
      set (n := length (completionsOf (setValue g row col (Some num)))).
      destruct (Z.leb_spec limit (acc + Z.min (Z.of_nat n) (limit - acc))) as [Hle|Hlt].
      * do 2 f_equal. lia.
      * rewrite IH by lia. do 2 f_equal. lia.
    + assert (completionsOf (setValue g row col (Some num)) = []) as ->.
      { apply isValid_false in Hvalid as [Hv|Hconf]; [congruence| |done..].
        destruct (completionsOf _) as [|s l] eqn:E; [done|]. exfalso.
        apply (conflict_no_completion g row col num s Hshape Hrow Hcol Hconf).
        apply elem_of_completionsOf; [by apply shape9_setValue|]. rewrite E. by left. }
      simpl. by apply IH.
Qed.
End CountLoop.

Lemma countSolutions_counts fuel : forall g limit,
  shape9 g -> coloursOk g -> noConflict g -> emptyCount g < fuel -> (1 <= limit)%Z ->
  GameLogic.countSolutions fuel g limit
  = Some (Z.min (Z.of_nat (length (completionsOf g))) limit, g).
Proof.
  induction fuel as [|fuel IH]; intros g limit Hg Hcol Hnc Hfuel Hlimit; [lia|].
  rewrite countSolutions_S. destruct (findEmptyCell g) as [[row col]|] eqn:Hfind.
  - pose proof (emptyCount_fill g row col) as Hcount.
    apply findEmptyCell_Some in Hfind as Hcell. destruct Hcell as (Hr & Hc & Hv & _).
    rewrite (countLoop_counts g row col limit _ Hg Hr Hc Hv); [| |..|lia].
    + by rewrite (completionsOf_split g row col).
    + intros v l Hv9 Hvalid Hl. apply isValid_true_empty in Hvalid; [|done..].
      apply IH; [by apply shape9_setValue|by apply coloursOk_setValue| |..|done].
      * by apply noConflict_setValue.
      * specialize (Hcount v Hg Hfind). lia.
    + apply Forall_forall. intros v Hin. apply elem_of_seq in Hin. lia.
  - apply findEmptyCell_None in Hfind. rewrite completionsOf_full by done.
    assert (solvedb g = true) as ->.
    { apply solvedb_true, satisfies_iff. done. }
    simpl. do 2 f_equal. lia.
Qed.

(** ** The count never exceeds the limit *)

Lemma countLoop_bound g row col limit rec nums acc :
  shape9 g -> row < 9 -> col < 9 -> valueAt g row col = None ->
  (forall v l, (1 <= l)%Z ->
     exists n, rec (setValue g row col (Some v)) l = Some (n, setValue g row col (Some v))
               /\ (0 <= n <= l)%Z) ->
  (0 <= acc < limit)%Z ->
  exists n, GameLogic.countLoop rec row col limit nums g acc = Some (n, g)
            /\ (0 <= n <= limit)%Z.
Proof.
  intros Hg Hr Hc Hv Hrec. revert acc. induction nums as [|num rest IH]; intros acc Hacc.
  - exists acc. split; [done|lia].
  - cbn [GameLogic.countLoop]. destruct (GameLogic.isValid g row col num); [|by apply IH].
    destruct (Hrec num (limit - acc)%Z ltac:(lia)) as (n & -> & Hn).
    rewrite setValue_undo by done.
    destruct (Z.leb_spec limit (acc + n)) as [Hle|Hlt].
    + exists (acc + n)%Z. split; [done|lia].
    + apply IH. lia.
Qed.

Lemma countSolutions_bound fuel : forall g limit,
  shape9 g -> emptyCount g < fuel -> (1 <= limit)%Z ->
  exists n, GameLogic.countSolutions fuel g limit = Some (n, g) /\ (0 <= n <= limit)%Z.
Proof.
  induction fuel as [|fuel IH]; intros g limit Hg Hfuel Hlimit; [lia|].
  rewrite countSolutions_S. destruct (findEmptyCell g) as [[row col]|] eqn:Hfind.
  - pose proof (emptyCount_fill g row col) as Hcount.
    apply findEmptyCell_Some in Hfind as Hcell. destruct Hcell as (Hr & Hc & Hv & _).
    apply countLoop_bound; [done..| |lia]. intros v l Hl. apply IH; [|..|done].
    + by apply shape9_setValue.
    + specialize (Hcount v Hg Hfind). lia.
  - exists 1%Z. split; [done|lia].
Qed.

(** ** A full grid counts as one solution *)

Lemma countSolutions_full fuel g limit :
  full g -> GameLogic.countSolutions (S fuel) g limit = Some (1%Z, g).
Proof. intros Hfull. rewrite countSolutions_S. by apply findEmptyCell_None in Hfull as ->. Qed.

Lemma hasUniqueSolution_full g : full g -> GameLogicB.hasUniqueSolution g = Some true.
Proof.
  intros Hfull. unfold GameLogicB.hasUniqueSolution, searchDepth.
  rewrite findSolutions_S. by apply findEmptyCell_None in Hfull as ->.
Qed.

(** ** The shuffle is a permutation *)

Lemma insert_Permutation {A} (l : list A) j x y :
  l !! j = Some y -> y :: <[j := x]> l ≡ₚ x :: l.
Proof.
  revert j. induction l as [|z l IH]; intros [|j] Hj; simplify_eq/=.
  - apply perm_swap.
  - rewrite perm_swap, (IH j Hj). apply perm_swap.
Qed.

Lemma swap_Permutation {A} (l : list A) i j : swap l i j ≡ₚ l.
Proof.
  unfold swap. destruct (l !! i) as [x|] eqn:Hi; [|done].
  destruct (l !! j) as [y|] eqn:Hj; [|done].
  revert i j Hi Hj. induction l as [|z l IH]; intros [|i] [|j] Hi Hj; simplify_eq/=.
  - done.
  - by apply insert_Permutation.
  - by apply insert_Permutation.
  - f_equiv. by apply IH.
Qed.

Lemma shuffleFrom_Permutation {A} rnd i (l : list A) k :
  (shuffleFrom rnd i l k).1 ≡ₚ l.
Proof.
  revert l k. induction i as [|i IH]; intros l k; simpl; [done|].
  rewrite IH. apply swap_Permutation.
Qed.

Lemma shuffle_Permutation {A} rnd (l : list A) k : (shuffle rnd l k).1 ≡ₚ l.
Proof. apply shuffleFrom_Permutation. Qed.

Lemma shuffle_elem_of {A} rnd (l : list A) k l' k' x :
  shuffle rnd l k = (l', k') -> x ∈ l' <-> x ∈ l.
Proof.
  intros H. pose proof (shuffle_Permutation rnd l k) as Hp. rewrite H in Hp.
  simpl in Hp. by rewrite Hp.
Qed.

(** ** Solve-one searches are sound and complete *)

Lemma completion_setValue g s row col v :
  shape9 g -> row < 9 -> col < 9 ->
  completion g s -> valueAt s row col = Some v ->
  completion (setValue g row col (Some v)) s.
Proof.
  intros Hg Hr Hc (Hs & Hext & Hsat) Hv. split; [done|]. split; [|done].
  intros r c Hr' Hc'. rewrite fixedAt_setValue. split; [by apply Hext|].
  intros w. destruct (decide ((r, c) = (row, col))) as [[= -> ->]|Hne].
  - rewrite valueAt_setValue_eq by done. congruence.
  - rewrite valueAt_setValue_ne by done. by apply Hext.
Qed.

Lemma completion_of_setValue g s row col v :
  row < 9 -> col < 9 -> valueAt g row col = None ->
  completion (setValue g row col (Some v)) s -> completion g s.
Proof.
  intros Hr Hc Hempty (Hs & Hext & Hsat). split; [done|]. split; [|done].
  intros r c Hr' Hc'. destruct (Hext r c Hr' Hc') as [Hfix Hval].
  rewrite fixedAt_setValue in Hfix. split; [done|]. intros w Hw. apply Hval.
  rewrite valueAt_setValue_ne; [done|]. intros [= -> ->]. congruence.
Qed.

Lemma conflict_excludes g s row col v :
  row < 9 -> col < 9 -> conflictAt g row col v ->
  completion g s -> valueAt s row col <> Some v.
Proof.
  intros Hr Hc (r' & c' & Hr' & Hc' & Hpeers & Hv') (Hs & Hext & Hsat) Hv.
  apply satisfies_iff in Hsat as (_ & _ & Hnc).
  apply (Hnc row col r' c' v Hr Hc Hr' Hc' Hpeers Hv). by apply Hext.
Qed.

Lemma completion_full g : shape9 g -> coloursOk g -> noConflict g -> full g -> completion g g.
Proof.
  intros Hg Hcol Hnc Hfull. split; [done|]. split; [|by apply satisfies_iff].
  by intros r c Hr Hc.
Qed.

Section TryLoop.
Variables (g : Grid) (row col : nat).
Hypothesis Hshape : shape9 g.
Hypothesis Hrow : row < 9.
Hypothesis Hcol : col < 9.
Hypothesis Hempty : valueAt g row col = None.

Lemma tryNumbers_outcome rec nums k :
  Forall (fun v => v < 9) nums ->
  (forall v k, v < 9 -> GameLogic.isValid g row col v = true ->
     exists b g' k', rec (setValue g row col (Some v)) k = Some (b, g', k')
                     /\ solveOutcome (setValue g row col (Some v)) b g') ->
  exists b g' k',
    GameLogic.tryNumbers rec row col nums g k = Some (b, g', k')
    /\ loopOutcome g row col nums b g'.
Proof using Hshape Hrow Hcol Hempty.
  intros Hnums Hrec. revert k.
  induction Hnums as [|num rest Hnum Hnums IH]; intros k; simpl.
  - exists false, g, k. split; [done|]. split; [|done]. intros _. split; [done|].
    intros s v _ _. apply not_elem_of_nil.
  - destruct (GameLogic.isValid g row col num) eqn:Hvalid.
    + destruct (Hrec num k Hnum Hvalid) as (b & g' & k' & -> & Hfalse & Htrue).
      destruct b.
      * exists true, g', k'. split; [done|]. split; [done|]. intros _.
        by eapply completion_of_setValue, Htrue.
      * destruct (Hfalse eq_refl) as [-> Hnone]. rewrite setValue_undo by done.
        destruct (IH k') as (b & g' & k'' & -> & Hf & Ht).
        exists b, g', k''. split; [done|]. split; [|done]. intros Hb.
        destruct (Hf Hb) as [-> Hrest]. split; [done|]. intros s v Hs Hv.
        apply not_elem_of_cons. split; [|by eapply Hrest].
        intros ->. apply (Hnone s). by apply completion_setValue.
    + destruct (IH k) as (b & g' & k'' & -> & Hf & Ht).
      exists b, g', k''. split; [done|]. split; [|done]. intros Hb.
      destruct (Hf Hb) as [-> Hrest]. split; [done|]. intros s v Hs Hv.
      apply not_elem_of_cons. split; [|by eapply Hrest].
      intros ->. apply isValid_false in Hvalid as [?|Hconf]; [congruence| |done..].
      by apply (conflict_excludes g s row col num Hrow Hcol Hconf Hs).
Qed.

Lemma tryColours_outcome check rec nums :
  Forall (fun v => v < 9) nums ->
  (forall v, check g row col v = false <-> conflictAt g row col v) ->
  (forall v, v < 9 -> check g row col v = true ->
     exists b g', rec (setValue g row col (Some v)) = Some (b, g')
                  /\ solveOutcome (setValue g row col (Some v)) b g') ->
  exists b g',
    tryColours check rec row col nums g = Some (b, g') /\ loopOutcome g row col nums b g'.
Proof using Hshape Hrow Hcol Hempty.
  intros Hnums Hcheck Hrec.
  induction Hnums as [|num rest Hnum Hnums IH]; simpl.
  - exists false, g. split; [done|]. split; [|done]. intros _. split; [done|].
    intros s v _ _. apply not_elem_of_nil.
  - destruct (check g row col num) eqn:Hvalid.
    + destruct (Hrec num Hnum Hvalid) as (b & g' & -> & Hfalse & Htrue).
      destruct b.
      * exists true, g'. split; [done|]. split; [done|]. intros _.
        by eapply completion_of_setValue, Htrue.
      * destruct (Hfalse eq_refl) as [-> Hnone]. rewrite setValue_undo by done.
        destruct IH as (b & g' & -> & Hf & Ht).
        exists b, g'. split; [done|]. split; [|done]. intros Hb.
        destruct (Hf Hb) as [-> Hrest]. split; [done|]. intros s v Hs Hv.
        apply not_elem_of_cons. split; [|by eapply Hrest].
        intros ->. apply (Hnone s). by apply completion_setValue.
    + destruct IH as (b & g' & -> & Hf & Ht).
      exists b, g'. split; [done|]. split; [|done]. intros Hb.
      destruct (Hf Hb) as [-> Hrest]. split; [done|]. intros s v Hs Hv.
      apply not_elem_of_cons. split; [|by eapply Hrest].
      intros ->. apply Hcheck in Hvalid as Hconf.
      by apply (conflict_excludes g s row col num Hrow Hcol Hconf Hs).
Qed.

Lemma loopOutcome_all nums b g' :
  (forall v, v < 9 -> v ∈ nums) -> loopOutcome g row col nums b g' -> solveOutcome g b g'.
Proof using Hrow Hcol.
  intros Hall [Hf Ht]. split; [|done]. intros Hb. destruct (Hf Hb) as [-> Hnone].
  split; [done|]. intros s Hs.
  destruct Hs as (Hs1 & Hs2 & Hsat). 
  destruct (satisfies_filled s row col Hsat Hrow Hcol) as (v & Hv & Hval).
  by apply (Hnone s v), Hall.
Qed.
End TryLoop.

Lemma generateSolution_outcome rnd fuel : forall g k,
  shape9 g -> coloursOk g -> noConflict g -> emptyCount g < fuel ->
  exists b g' k',
    GameLogic.generateSolution rnd fuel g k = Some (b, g', k') /\ solveOutcome g b g'.
Proof.
  induction fuel as [|fuel IH]; intros g k Hg Hcol Hnc Hfuel; [lia|].
  rewrite generateSolution_S. destruct (findEmptyCell g) as [[row col]|] eqn:Hfind.
  - pose proof (emptyCount_fill g row col) as Hcount.
    apply findEmptyCell_Some in Hfind as Hcell. destruct Hcell as (Hr & Hc & Hv & _).
    destruct (shuffle rnd (seq 0 9) k) as [numbers k1] eqn:Hshuffle.
    destruct (tryNumbers_outcome g row col Hg Hr Hc Hv
                (GameLogic.generateSolution rnd fuel) numbers k1)
      as (b & g' & k' & Hrun & Hout).
    + apply Forall_forall. intros v Hin.
      apply (shuffle_elem_of _ _ _ _ _ _ Hshuffle), elem_of_seq in Hin. lia.
    + intros v k2 Hv9 Hvalid. apply isValid_true_empty in Hvalid; [|done..].
      apply IH; [by apply shape9_setValue|by apply coloursOk_setValue| |].
      * by apply noConflict_setValue.
      * specialize (Hcount v Hg Hfind). lia.
    + exists b, g', k'. split; [done|]. apply (loopOutcome_all g row col Hr Hc numbers); [|done].
      intros v Hv9. apply (shuffle_elem_of _ _ _ _ _ _ Hshuffle), elem_of_seq. lia.
  - exists true, g, k. split; [done|]. split; [done|]. intros _.
    apply completion_full; [done..|]. by apply findEmptyCell_None.
Qed.

Lemma solveOne_outcome check fuel :
  (forall g r c v, r < 9 -> c < 9 -> check g r c v = false <-> conflictAt g r c v) ->
  forall g,
  shape9 g -> coloursOk g -> noConflict g -> emptyCount g < fuel ->
  exists b g', solveOne check fuel g = Some (b, g') /\ solveOutcome g b g'.
Proof.
  intros Hcheck. induction fuel as [|fuel IH]; intros g Hg Hcol Hnc Hfuel; [lia|].
  rewrite solveOne_S. destruct (findEmptyCell g) as [[row col]|] eqn:Hfind.
  - pose proof (emptyCount_fill g row col) as Hcount.
    apply findEmptyCell_Some in Hfind as Hcell. destruct Hcell as (Hr & Hc & Hv & _).
    destruct (tryColours_outcome g row col Hg Hr Hc Hv check (solveOne check fuel) (seq 0 9))
      as (b & g' & Hrun & Hout).
    + apply Forall_forall. intros v Hin. apply elem_of_seq in Hin. lia.
    + intros v. by apply Hcheck.
    + intros v Hv9 Hvalid.
      apply IH; [by apply shape9_setValue|by apply coloursOk_setValue| |].
      * apply noConflict_setValue; [done..|]. intros Hconf.
        apply Hcheck in Hconf; [congruence|done..].
      * specialize (Hcount v Hg Hfind). lia.
    + exists b, g'. split; [done|]. apply (loopOutcome_all g row col Hr Hc (seq 0 9)); [|done].
      intros v Hv9. apply elem_of_seq. lia.
  - exists true, g. split; [done|]. split; [done|]. intros _.
    apply completion_full; [done..|]. by apply findEmptyCell_None.
Qed.

(** ** A solved grid exists *)

Lemma forall_cells (P : nat -> nat -> bool) :
  forallb (fun p => P p.1 p.2) rowMajor = true ->
  forall r c, r < 9 -> c < 9 -> P r c = true.
Proof.
  intros H r c Hr Hc. rewrite forallb_forall in H.
  apply (H (r, c)). by apply in_rowMajor.
Qed.

Lemma shape9_createEmptyGrid : shape9 createEmptyGrid.
Proof. split; [done|]. by repeat constructor. Qed.

Lemma cellAt_createEmptyGrid r c :
  r < 9 -> c < 9 -> cellAt createEmptyGrid r c = Some (mkCell None false).
Proof.
  intros Hr Hc.
  pose proof (forall_cells (fun r c => bool_decide (cellAt createEmptyGrid r c
                                          = Some (mkCell None false)))
                eq_refl r c Hr Hc) as H.
  by apply bool_decide_eq_true_1 in H.
Qed.

Lemma shiftedSolution_completes : completion createEmptyGrid shiftedSolution.
Proof.
  split; [split; [done|by repeat constructor]|]. split.
  - intros r c Hr Hc. unfold valueAt, fixedAt. rewrite cellAt_createEmptyGrid by done.
    split; [|done].
    pose proof (forall_cells (fun r c => bool_decide
         (match cellAt shiftedSolution r c with
          | Some c => isFixed c | None => false end = false))
                  eq_refl r c Hr Hc) as H.
    by apply bool_decide_eq_true_1 in H.
  - apply solvedb_true. by vm_compute.
Qed.

(** ** The generator of lib/game-logic.ts *)

Lemma coloursOk_setFixed g r c b : coloursOk g -> coloursOk (setFixed g r c b).
Proof. intros H r' c' v Hr Hc. rewrite valueAt_setFixed. by apply H. Qed.

Lemma noConflict_setFixed g r c b : noConflict g -> noConflict (setFixed g r c b).
Proof.
  intros H r1 c1 r2 c2 v Hr1 Hc1 Hr2 Hc2 Hp. rewrite !valueAt_setFixed. by apply H.
Qed.

Lemma shape9_markAllFixed g : shape9 g -> shape9 (GameLogic.markAllFixed g).
Proof.
  intros [Hlen Hrows]. unfold GameLogic.markAllFixed. split.
  - by rewrite length_fmap.
  - apply Forall_fmap. eapply Forall_impl; [done|]. intros row Hrow. simpl.
    by rewrite length_fmap.
Qed.

Lemma cellAt_markAllFixed g r c :
  cellAt (GameLogic.markAllFixed g) r c
  = (fun x => mkCell (value x) true) <$> cellAt g r c.
Proof.
  unfold cellAt, GameLogic.markAllFixed. rewrite list_lookup_fmap.
  destruct (g !! r) as [row|]; simpl; [|done]. by rewrite list_lookup_fmap.
Qed.

Lemma valueAt_markAllFixed g r c :
  valueAt (GameLogic.markAllFixed g) r c = valueAt g r c.
Proof. unfold valueAt. rewrite cellAt_markAllFixed. by destruct (cellAt g r c). Qed.

Lemma fixedAt_markAllFixed g r c :
  shape9 g -> r < 9 -> c < 9 -> fixedAt (GameLogic.markAllFixed g) r c = true.
Proof.
  intros Hg Hr Hc. unfold fixedAt. rewrite cellAt_markAllFixed.
  by destruct (shape9_cellAt g r c Hg Hr Hc) as [x ->].
Qed.

Lemma removeCells_invariant target positions : forall g removed,
  Forall (fun pos => pos < 81) positions ->
  puzzleInvariant g -> emptyCount g <= removed -> removed <= target ->
  exists g' removed',
    GameLogic.removeCells target positions g removed = Some g'
    /\ puzzleInvariant g' /\ emptyCount g' <= removed' /\ removed' <= target.
Proof.
  induction positions as [|pos rest IH]; intros g removed Hpos Hinv Hcount Hle.
  - by exists g, removed.
  - apply Forall_cons in Hpos as [Hpos Hrest]. cbn [GameLogic.removeCells].
    destruct (Nat.leb_spec target removed) as [Hstop|Hgo]; [by exists g, removed|].
    set (row := pos / 9). set (col := pos mod 9).
    assert (row < 9) as Hr by (unfold row; dlia).
    assert (col < 9) as Hc by (unfold col; dlia).
    destruct Hinv as [Hg Hcol Hnc Hflags Huniq].
    set (g1 := setFixed (setValue g row col None) row col false).
    assert (shape9 g1) as Hg1 by (by apply shape9_setFixed, shape9_setValue).
    assert (coloursOk g1) as Hcol1 by (by apply coloursOk_setFixed, coloursOk_clear).
    assert (noConflict g1) as Hnc1 by (by apply noConflict_setFixed, noConflict_clear).
    rewrite (countSolutions_counts searchDepth g1 2 Hg1 Hcol1 Hnc1
               (searchDepth_enough g1) ltac:(lia)).
    destruct (Z.eqb_spec (Z.min (Z.of_nat (length (completionsOf g1))) 2) 1) as [Hone|Hmany].
    + apply IH; [done| |..].
      * split; [done..| |lia].
        intros r c Hr' Hc'. unfold g1.
        destruct (decide ((r, c) = (row, col))) as [[= -> ->]|Hne].
        -- rewrite fixedAt_setFixed_eq by (done || by apply shape9_setValue).
           rewrite isEmptyAt_setFixed. unfold isEmptyAt.
           by rewrite valueAt_setValue_eq.
        -- rewrite fixedAt_setFixed_ne, fixedAt_setValue by done.
           rewrite isEmptyAt_setFixed, isEmptyAt_setValue_ne by done. by apply Hflags.
      * unfold g1. rewrite emptyCount_setFixed. pose proof (emptyCount_clear g row col). lia.
      * lia.
    + destruct (valueAt g row col) as [v|] eqn:Hv.
      * assert (setFixed (setValue g1 row col (Some v)) row col true = g) as ->.
        { apply grid_ext_fields;
            [by apply shape9_setFixed, shape9_setValue|done|].
          intros r c Hr' Hc'. unfold g1. rewrite valueAt_setFixed.
          destruct (decide ((r, c) = (row, col))) as [[= -> ->]|Hne].
          - rewrite valueAt_setValue_eq, fixedAt_setFixed_eq
              by (done || by repeat (apply shape9_setFixed || apply shape9_setValue)).
            rewrite Hflags by done. unfold isEmptyAt. by rewrite Hv.
          - rewrite valueAt_setValue_ne, valueAt_setFixed, valueAt_setValue_ne by done.
            rewrite fixedAt_setFixed_ne, fixedAt_setValue by done.
            by rewrite fixedAt_setFixed_ne, fixedAt_setValue by done. }
        by apply IH.
      * exfalso. apply Hmany. assert (g1 = g) as ->; [|lia].
        apply grid_ext_fields; [done..|]. intros r c Hr' Hc'. unfold g1.
        rewrite valueAt_setFixed.
        destruct (decide ((r, c) = (row, col))) as [[= -> ->]|Hne].
        -- rewrite valueAt_setValue_eq, fixedAt_setFixed_eq
             by (done || by apply shape9_setValue).
           rewrite Hflags by done. unfold isEmptyAt. by rewrite Hv.
        -- by rewrite valueAt_setValue_ne, fixedAt_setFixed_ne, fixedAt_setValue.
Qed.

Lemma emptyCount_full g : full g -> emptyCount g = 0.
Proof. intros H. unfold emptyCount. by apply emptyCells_nil in H as ->. Qed.

Lemma generatePuzzle_invariant rnd d :
  exists g,
    GameLogic.generatePuzzle rnd d = Some g
    /\ puzzleInvariant g /\ emptyCount g <= GameLogic.cellsToRemove d.
Proof.
  unfold GameLogic.generatePuzzle.
  destruct (generateSolution_outcome rnd searchDepth createEmptyGrid 0)
    as (b & g & k & -> & Hfalse & Htrue).
  { apply shape9_createEmptyGrid. }
  { intros r c v Hr Hc. unfold valueAt. by rewrite cellAt_createEmptyGrid. }
  { intros r c r' c' v Hr Hc Hr' Hc' _. unfold valueAt. by rewrite cellAt_createEmptyGrid. }
  { apply searchDepth_enough. }
  destruct b; [|destruct (Hfalse eq_refl) as [_ Hnone];
                 by destruct (Hnone _ shiftedSolution_completes)].
  destruct (Htrue eq_refl) as (Hg & Hext & Hsat).
  apply satisfies_iff in Hsat as (Hfull & Hcol & Hnc).
  destruct (shuffle rnd (seq 0 81) k) as [positions k'] eqn:Hshuffle.
  destruct (removeCells_invariant (GameLogic.cellsToRemove d) positions
              (GameLogic.markAllFixed g) 0)
    as (g' & removed' & Hrun & Hinv & Hcount & Hle).
  - apply Forall_forall. intros pos Hin.
    apply (shuffle_elem_of _ _ _ _ _ _ Hshuffle), elem_of_seq in Hin. lia.
  - assert (full (GameLogic.markAllFixed g)) as Hfull'.
    { intros r c Hr Hc. rewrite valueAt_markAllFixed. by apply Hfull. }
    split.
    + by apply shape9_markAllFixed.
    + intros r c v Hr Hc. rewrite valueAt_markAllFixed. by apply Hcol.
    + intros r c r' c' v Hr Hc Hr' Hc' Hp. rewrite !valueAt_markAllFixed. by apply Hnc.
    + intros r c Hr Hc. rewrite fixedAt_markAllFixed by done.
      unfold isEmptyAt. specialize (Hfull' r c Hr Hc).
      by destruct (valueAt (GameLogic.markAllFixed g) r c).
    + rewrite completionsOf_full by done.
      assert (solvedb (GameLogic.markAllFixed g) = true) as ->; [|done].
      apply solvedb_true, satisfies_iff. split; [done|]. split.
      * intros r c v Hr Hc. rewrite valueAt_markAllFixed. by apply Hcol.
      * intros r c r' c' v Hr Hc Hr' Hc' Hp. rewrite !valueAt_markAllFixed. by apply Hnc.
  - rewrite emptyCount_full; [lia|].
    intros r c Hr Hc. rewrite valueAt_markAllFixed. by apply Hfull.
  - lia.
  - exists g'. split; [done|]. split; [done|]. lia.
Qed.

Lemma flags_cellInvariant g :
  (forall r c, r < 9 -> c < 9 -> fixedAt g r c = negb (isEmptyAt g r c)) ->
  cellInvariant g.
Proof.
  intros Hflags r c Hr Hc Hfix Hv. rewrite (Hflags r c Hr Hc) in Hfix.
  unfold isEmptyAt in Hfix. by rewrite Hv in Hfix.
Qed.

Lemma generatePuzzle_cellInvariant rnd d :
  exists g, GameLogic.generatePuzzle rnd d = Some g /\ shape9 g /\ cellInvariant g.
Proof.
  destruct (generatePuzzle_invariant rnd d) as (g & Hrun & Hinv & _).
  exists g. split; [done|]. split; [apply Hinv|]. apply flags_cellInvariant, Hinv.
Qed.

(** ** Counting cells *)

Lemma filter_negb_length {A} (f : A -> bool) l :
  length (List.filter f l) + length (List.filter (fun x => negb (f x)) l) = length l.
Proof. induction l as [|x l IH]; simpl; [done|]. destruct (f x); simpl; lia. Qed.

Lemma fixed_plus_empty g :
  (forall r c, r < 9 -> c < 9 -> fixedAt g r c = negb (isEmptyAt g r c)) ->
  fixedCount g + emptyCount g = 81.
Proof.
  intros Hflags. unfold fixedCount, emptyCount, emptyCells.
  rewrite (filter_ext_in _ (fun p => negb (isEmptyAt g p.1 p.2))).
  - rewrite Nat.add_comm, filter_negb_length. by vm_compute.
  - intros [r c] Hin. apply in_rowMajor in Hin as [Hr Hc]. by apply Hflags.
Qed.

(** ** A search only ever writes into empty cells *)

Lemma extends_refl g : extends g g.
Proof. by intros r c Hr Hc. Qed.

Lemma extends_of_setValue g g' row col v :
  row < 9 -> col < 9 -> valueAt g row col = None ->
  extends (setValue g row col (Some v)) g' -> extends g g'.
Proof.
  intros Hr Hc Hempty Hext r c Hr' Hc'. destruct (Hext r c Hr' Hc') as [Hfix Hval].
  rewrite fixedAt_setValue in Hfix. split; [done|]. intros w Hw. apply Hval.
  rewrite valueAt_setValue_ne; [done|]. intros [= -> ->]. congruence.
Qed.

Section Keeps.
Variables (g : Grid) (row col : nat).
Hypothesis Hshape : shape9 g.
Hypothesis Hrow : row < 9.
Hypothesis Hcol : col < 9.
Hypothesis Hempty : valueAt g row col = None.

Lemma tryNumbers_keeps rec nums :
  (forall v k b g' k',
      rec (setValue g row col (Some v)) k = Some (b, g', k') ->
      (b = false -> g' = setValue g row col (Some v))
      /\ shape9 g' /\ extends (setValue g row col (Some v)) g') ->
  forall k b g' k',
    GameLogic.tryNumbers rec row col nums g k = Some (b, g', k') ->
    (b = false -> g' = g) /\ shape9 g' /\ extends g g'.
Proof using Hshape Hrow Hcol Hempty.
  intros Hrec. induction nums as [|num rest IH]; intros k b g' k'; simpl.
  - intros [= <- <- <-]. split; [done|]. split; [done|apply extends_refl].
  - destruct (GameLogic.isValid g row col num); [|apply IH].
    destruct (rec (setValue g row col (Some num)) k) as [[[b1 g1] k1]|] eqn:E; [|done].
    destruct (Hrec _ _ _ _ _ E) as (Hf & Hs & Hext). destruct b1.
    + intros [= <- <- <-]. split; [done|]. split; [done|].
      by apply (extends_of_setValue g g1 row col num).
    + rewrite (Hf eq_refl), setValue_undo by done. apply IH.
Qed.

Lemma tryColours_keeps check rec nums :
  (forall v b g',
      rec (setValue g row col (Some v)) = Some (b, g') ->
      (b = false -> g' = setValue g row col (Some v))
      /\ shape9 g' /\ extends (setValue g row col (Some v)) g') ->
  forall b g',
    tryColours check rec row col nums g = Some (b, g') ->
    (b = false -> g' = g) /\ shape9 g' /\ extends g g'.
Proof using Hshape Hrow Hcol Hempty.
  intros Hrec. induction nums as [|num rest IH]; intros b g'; simpl.
  - intros [= <- <-]. split; [done|]. split; [done|apply extends_refl].
  - destruct (check g row col num); [|apply IH].
    destruct (rec (setValue g row col (Some num))) as [[b1 g1]|] eqn:E; [|done].
    destruct (Hrec _ _ _ E) as (Hf & Hs & Hext). destruct b1.
    + intros [= <- <-]. split; [done|]. split; [done|].
      by apply (extends_of_setValue g g1 row col num).
    + rewrite (Hf eq_refl), setValue_undo by done. apply IH.
Qed.
End Keeps.

Lemma generateSolution_keeps rnd fuel : forall g k b g' k',
  shape9 g -> GameLogic.generateSolution rnd fuel g k = Some (b, g', k') ->
  (b = false -> g' = g) /\ shape9 g' /\ extends g g'.
Proof.
  induction fuel as [|fuel IH]; intros g k b g' k' Hg; [done|].
  rewrite generateSolution_S. destruct (findEmptyCell g) as [[row col]|] eqn:Hfind.
  - apply findEmptyCell_Some in Hfind as (Hr & Hc & Hv & _).
    destruct (shuffle rnd (seq 0 9) k) as [numbers k1].
    apply tryNumbers_keeps; [done..|]. intros v k2 b2 g2 k2'. apply IH.
    by apply shape9_setValue.
  - intros [= <- <- <-]. split; [done|]. split; [done|apply extends_refl].
Qed.

Lemma solveOne_keeps check fuel : forall g b g',
  shape9 g -> solveOne check fuel g = Some (b, g') ->
  (b = false -> g' = g) /\ shape9 g' /\ extends g g'.
Proof.
  induction fuel as [|fuel IH]; intros g b g' Hg; [done|].
  rewrite solveOne_S. destruct (findEmptyCell g) as [[row col]|] eqn:Hfind.
  - apply findEmptyCell_Some in Hfind as (Hr & Hc & Hv & _).
    apply tryColours_keeps; [done..|]. intros v b2 g2. apply IH.
    by apply shape9_setValue.
  - intros [= <- <-]. split; [done|]. split; [done|apply extends_refl].
Qed.

Lemma cellInvariant_extends g g' :
  cellInvariant g -> extends g g' -> cellInvariant g'.
Proof.
  intros Hinv Hext r c Hr Hc Hfix. destruct (Hext r c Hr Hc) as [Hf Hv].
  rewrite Hf in Hfix. specialize (Hinv r c Hr Hc Hfix).
  destruct (valueAt g r c) as [v|]; [|done]. by rewrite (Hv v).
Qed.

(** A cell is its two fields. *)
Lemma cellAt_fields g r c :
  shape9 g -> r < 9 -> c < 9 ->
  cellAt g r c = Some (mkCell (valueAt g r c) (fixedAt g r c)).
Proof.
  intros Hg Hr Hc. unfold valueAt, fixedAt.
  by destruct (shape9_cellAt g r c Hg Hr Hc) as [[v f] ->].
Qed.

(** ** The game component *)

Lemma shape9_fixFilled g : shape9 g -> shape9 (fixFilled g).
Proof.
  intros [Hlen Hrows]. unfold fixFilled. split.
  - by rewrite length_fmap.
  - apply Forall_fmap. eapply Forall_impl; [done|]. intros row Hrow. simpl.
    by rewrite length_fmap.
Qed.

Lemma cellAt_fixFilled g r c :
  cellAt (fixFilled g) r c
  = (fun x => mkCell (value x) (match value x with Some _ => true | None => false end))
      <$> cellAt g r c.
Proof.
  unfold cellAt, fixFilled. rewrite list_lookup_fmap.
  destruct (g !! r) as [row|]; simpl; [|done]. by rewrite list_lookup_fmap.
Qed.

Lemma frozenStep_refl g : shape9 g -> cellInvariant g -> frozenStep g g.
Proof. intros Hg Hinv. split; [done|]. split; [done|]. by intros r c Hr Hc Hf. Qed.


Lemma frozenStep_setValue g y x v :
  shape9 g -> cellInvariant g -> fixedAt g y x = false ->
  frozenStep g (setValue g y x v).
Proof.
  intros Hg Hinv Hfree. split; [by apply shape9_setValue|]. split.
  - intros r c Hr Hc. rewrite fixedAt_setValue. intros Hfix.
    rewrite valueAt_setValue_ne; [by apply Hinv|]. intros [= -> ->]. congruence.
  - intros r c Hr Hc Hfix. unfold setValue. rewrite cellAt_updCell.
    case_decide as H; [|done]. destruct H as [-> ->]. congruence.
Qed.

Lemma handleSolve_frozen s :
  shape9 (grid s) -> cellInvariant (grid s) ->
  frozenStep (grid s) (grid (handleSolve s)).
Proof.
  intros Hg Hinv. unfold handleSolve.
  destruct (solveOne _ _ _) as [[[] solved]|] eqn:E; try by apply frozenStep_refl.
  apply solveOne_keeps in E as (_ & Hs & Hext); [|by apply shape9_fixFilled].
  simpl. split; [done|]. split.
  - apply (cellInvariant_extends (fixFilled (grid s))); [|done].
    intros r c Hr Hc. unfold fixedAt, valueAt. rewrite cellAt_fixFilled.
    destruct (cellAt (grid s) r c) as [[[v|] f]|]; done.
  - intros r c Hr Hc Hfix. destruct (Hext r c Hr Hc) as [Hf Hv].
    specialize (Hinv r c Hr Hc Hfix).
    rewrite (cellAt_fields solved), (cellAt_fields (grid s)) by done.
    destruct (valueAt (grid s) r c) as [v|] eqn:Hval; [|done].
    assert (cellAt (fixFilled (grid s)) r c = Some (mkCell (Some v) true)) as Hcell.
    { rewrite cellAt_fixFilled, (cellAt_fields (grid s)) by done. by rewrite Hval. }
    rewrite Hf, (Hv v), Hfix.
    + unfold fixedAt. by rewrite Hcell.
    + unfold valueAt. by rewrite Hcell.
Qed.

Lemma handleColorSelect_frozen c s :
  shape9 (grid s) -> cellInvariant (grid s) ->
  frozenStep (grid s) (grid (Component.handleColorSelect c s)).
Proof.
  intros Hg Hinv. unfold Component.handleColorSelect.
  destruct (selectedCell s) as [[x y]|]; [|by apply frozenStep_refl].
  destruct (fixedAt (grid s) y x) eqn:Hfix; [by apply frozenStep_refl|].
  case_bool_decide; [by apply frozenStep_setValue|].
  destruct (9 <=? c); [by apply frozenStep_refl|]. by apply frozenStep_setValue.
Qed.

Lemma mousePressed_frozen x y s :
  shape9 (grid s) -> cellInvariant (grid s) ->
  frozenStep (grid s) (grid (Component.mousePressed x y s)).
Proof.
  intros Hg Hinv. unfold Component.mousePressed.
  destruct (_ && _); [|by apply frozenStep_refl].
  destruct (fixedAt (grid s) y x) eqn:Hfix; [by apply frozenStep_refl|].
  case_bool_decide; [by apply frozenStep_setValue|].
  destruct (selectedColor s) as [colour|]; [|by apply frozenStep_refl].
  pose proof (handleColorSelect_frozen colour s Hg Hinv) as Hstep.
  destruct (selectedCell s) as [[x' y']|]; [|done].
  destruct (fixedAt (grid s) y' x'); [done|]. by case_bool_decide.
Qed.

Lemma step_frozen s a :
  shape9 (grid s) -> cellInvariant (grid s) ->
  frozenStep (grid s) (grid (Component.step s a)).
Proof.
  intros Hg Hinv. destruct a as [x y|c| |]; simpl.
  - by apply mousePressed_frozen.
  - by apply handleColorSelect_frozen.
  - by apply handleSolve_frozen.
  - by apply frozenStep_refl.
Qed.


Lemma earlier_handleColorSelect_frozen c s :
  shape9 (grid s) -> cellInvariant (grid s) ->
  frozenStep (grid s) (grid (ComponentEarlier.handleColorSelect c s)).
Proof.
  intros Hg Hinv. unfold ComponentEarlier.handleColorSelect.
  destruct (selectedCell s) as [[x y]|]; [|by apply frozenStep_refl].
  destruct (fixedAt (grid s) y x) eqn:Hfix; [by apply frozenStep_refl|].
  destruct (9 <=? c); [by apply frozenStep_refl|]. by apply frozenStep_setValue.
Qed.

Lemma earlier_step_frozen s a :
  shape9 (grid s) -> cellInvariant (grid s) ->
  frozenStep (grid s) (grid (ComponentEarlier.step s a)).
Proof.
  intros Hg Hinv. destruct a as [x y|c| |]; simpl.
  - unfold ComponentEarlier.mousePressed. destruct (_ && _); [|by apply frozenStep_refl].
    destruct (fixedAt (grid s) y x); by apply frozenStep_refl.
  - by apply earlier_handleColorSelect_frozen.
  - by apply handleSolve_frozen.
  - by apply frozenStep_refl.
Qed.


Lemma startNewGame_cellInvariant rnd d s :
  shape9 (grid s) -> cellInvariant (grid s) ->
  shape9 (grid (startNewGame rnd d s)) /\ cellInvariant (grid (startNewGame rnd d s)).
Proof.
  intros Hg Hinv. unfold startNewGame.
  destruct (generatePuzzle_cellInvariant rnd d) as (g & -> & Hs & Hi). done.
Qed.

(** ** Help-solve on a generated puzzle *)

Lemma valueAt_fixFilled g r c : valueAt (fixFilled g) r c = valueAt g r c.
Proof. unfold valueAt. rewrite cellAt_fixFilled. by destruct (cellAt g r c). Qed.

Lemma cellAt_withFlags flags vals r c :
  shape9 flags -> shape9 vals -> r < 9 -> c < 9 ->
  cellAt (withFlags flags vals) r c
  = Some (mkCell (valueAt vals r c) (fixedAt flags r c)).
Proof.
  intros Hf Hv Hr Hc. unfold withFlags, valueAt, fixedAt, cellAt.
  destruct (shape9_row flags r Hf Hr) as (rowf & Hrowf & Hlenf).
  destruct (shape9_row vals r Hv Hr) as (rowv & Hrowv & Hlenv).
  rewrite lookup_zip_with, Hrowf, Hrowv. simpl. rewrite lookup_zip_with.
  destruct (lookup_lt_is_Some_2 rowf c ltac:(lia)) as [x ->].
  destruct (lookup_lt_is_Some_2 rowv c ltac:(lia)) as [y ->]. done.
Qed.

Lemma shape9_withFlags flags vals :
  shape9 flags -> shape9 vals -> shape9 (withFlags flags vals).
Proof.
  intros [Hlf Hrf] [Hlv Hrv]. unfold withFlags. split.
  - rewrite length_zip_with. lia.
  - apply Forall_lookup. intros i row. rewrite lookup_zip_with.
    destruct (flags !! i) as [rf|] eqn:Ef; [|done].
    destruct (vals !! i) as [rv|] eqn:Ev; [|done]. simpl. intros [= <-].
    rewrite length_zip_with.
    pose proof (Forall_lookup_1 _ _ _ _ Hrf Ef). pose proof (Forall_lookup_1 _ _ _ _ Hrv Ev).
    simpl in *. lia.
Qed.

Lemma satisfies_same_values g g' :
  (forall r c, r < 9 -> c < 9 -> valueAt g' r c = valueAt g r c) ->
  satisfiesConstraints g -> satisfiesConstraints g'.
Proof.
  intros Hsame Hsat h v Hh Hv. destruct (Hsat h v Hh Hv) as (r & c & (Hr & Hc & Hin & Hval) & Huniq).
  exists r, c. split.
  - rewrite Hsame by done. done.
  - intros r' c' Hr' Hc' Hin'. rewrite Hsame by done. by apply Huniq.
Qed.

Lemma completion_fixFilled g s :
  shape9 g -> completion g s -> completion (fixFilled g) (withFlags (fixFilled g) s).
Proof.
  intros Hg (Hs & Hext & Hsat). pose proof (shape9_fixFilled g Hg) as Hg'.
  split; [by apply shape9_withFlags|]. split.
  - intros r c Hr Hc. unfold fixedAt at 1, valueAt at 2.
    rewrite cellAt_withFlags by done. simpl. split; [done|].
    intros v. rewrite valueAt_fixFilled. by apply Hext.
  - apply (satisfies_same_values s); [|done]. intros r c Hr Hc.
    unfold valueAt at 1. by rewrite cellAt_withFlags.
Qed.

Lemma handleSolve_succeeds g :
  puzzleInvariant g ->
  exists solved,
    solveOne GameLogic.checkPlacement searchDepth (fixFilled g) = Some (true, solved)
    /\ completion (fixFilled g) solved.
Proof.
  intros [Hg Hcol Hnc _ Huniq]. pose proof (shape9_fixFilled g Hg) as Hg'.
  destruct (solveOne_outcome GameLogic.checkPlacement searchDepth
              checkPlacement_false (fixFilled g)) as (b & solved & Hrun & Hfalse & Htrue).
  - done.
  - intros r c v Hr Hc. rewrite valueAt_fixFilled. by apply Hcol.
  - intros r c r' c' v Hr Hc Hr' Hc' Hp. rewrite !valueAt_fixFilled. by apply Hnc.
  - apply searchDepth_enough.
  - destruct b; [by exists solved; auto|]. exfalso.
    destruct (completionsOf g) as [|s l] eqn:E; [done|].
    assert (completion g s) as Hs by (apply elem_of_completionsOf; [done|]; rewrite E; by left).
    destruct (Hfalse eq_refl) as [_ Hnone].
    by apply (Hnone _ (completion_fixFilled g s Hg Hs)).
Qed.

(** ** The generator of the second game-logic file *)

Lemma fillBox_shape rnd g startRow startCol k :
  shape9 g -> allUnfixed g ->
  shape9 (GameLogicB.fillBox rnd g startRow startCol k).1
  /\ allUnfixed (GameLogicB.fillBox rnd g startRow startCol k).1.
Proof.
  intros Hg Hfree. unfold GameLogicB.fillBox.
  destruct (shuffle rnd (seq 0 9) k) as [numbers k']. cbn [fst].
  generalize (seq 0 9). intros idxs. revert g Hg Hfree.
  induction idxs as [|i rest IH]; intros g Hg Hfree; [done|].
  cbn [foldl]. apply IH; [by apply shape9_setValue|].
  intros r c Hr Hc. rewrite fixedAt_setValue. by apply Hfree.
Qed.

Lemma hasUniqueSolution_total g :
  shape9 g -> exists b, GameLogicB.hasUniqueSolution g = Some b.
Proof.
  intros Hg. unfold GameLogicB.hasUniqueSolution.
  destruct (findSolutions_restores searchDepth g [] Hg (searchDepth_enough g))
    as [sols ->]. by eexists.
Qed.

Lemma removeCellsB_shape positions : forall g,
  shape9 g -> allUnfixed g ->
  exists g', GameLogicB.removeCells positions g = Some g'
             /\ shape9 g' /\ allUnfixed g'.
Proof.
  induction positions as [|[row col] rest IH]; intros g Hg Hfree.
  - by exists g.
  - cbn [GameLogicB.removeCells].
    destruct (hasUniqueSolution_total (setValue g row col None)) as [b ->];
      [by apply shape9_setValue|].
    destruct b; apply IH; repeat apply shape9_setValue; try done;
      intros r c Hr Hc; rewrite ?fixedAt_setValue; by apply Hfree.
Qed.

Lemma shape9_markFilledFixed g : shape9 g -> shape9 (GameLogicB.markFilledFixed g).
Proof.
  intros [Hlen Hrows]. unfold GameLogicB.markFilledFixed. split.
  - by rewrite length_fmap.
  - apply Forall_fmap. eapply Forall_impl; [done|]. intros row Hrow. simpl.
    by rewrite length_fmap.
Qed.

Lemma cellAt_markFilledFixed g r c :
  cellAt (GameLogicB.markFilledFixed g) r c
  = (fun x => match value x with
              | Some _ => mkCell (value x) true
              | None => x
              end) <$> cellAt g r c.
Proof.
  unfold cellAt, GameLogicB.markFilledFixed. rewrite list_lookup_fmap.
  destruct (g !! r) as [row|]; simpl; [|done]. by rewrite list_lookup_fmap.
Qed.

Lemma allUnfixed_createEmptyGrid : allUnfixed createEmptyGrid.
Proof. intros r c Hr Hc. unfold fixedAt. by rewrite cellAt_createEmptyGrid. Qed.

Lemma generatePuzzleB_invariant rnd d :
  exists g,
    GameLogicB.generatePuzzle rnd d = Some g
    /\ shape9 g
    /\ forall r c, r < 9 -> c < 9 -> fixedAt g r c = negb (isEmptyAt g r c).
Proof.
  unfold GameLogicB.generatePuzzle, GameLogicB.fillAndSolve.
  pose proof (fillBox_shape rnd createEmptyGrid 0 0 0
                shape9_createEmptyGrid allUnfixed_createEmptyGrid) as [Hs1 Hf1].
  destruct (GameLogicB.fillBox rnd createEmptyGrid 0 0 0) as [g1 k1]. cbn [fst] in *.
  pose proof (fillBox_shape rnd g1 3 3 k1 Hs1 Hf1) as [Hs2 Hf2].
  destruct (GameLogicB.fillBox rnd g1 3 3 k1) as [g2 k2]. cbn [fst] in *.
  pose proof (fillBox_shape rnd g2 6 6 k2 Hs2 Hf2) as [Hs3 Hf3].
  destruct (GameLogicB.fillBox rnd g2 6 6 k2) as [g3 k3]. cbn [fst] in *.
  unfold GameLogicB.solveGrid.
  destruct (solveOne_restores GameLogicB.checkPlacement searchDepth g3 Hs3
              (searchDepth_enough g3)) as (b & g4 & Hsolve & _).
  rewrite Hsolve. apply solveOne_keeps in Hsolve as (_ & Hs4 & Hext); [|done].
  destruct (shuffle rnd _ k3) as [positions k4].
  destruct (removeCellsB_shape (take (GameLogicB.cellsToRemove d) positions) g4)
    as (g5 & -> & Hs5 & Hf5); [done| |].
  { intros r c Hr Hc. destruct (Hext r c Hr Hc) as [-> _]. by apply Hf3. }
  exists (GameLogicB.markFilledFixed g5). split; [done|].
  split; [by apply shape9_markFilledFixed|].
  intros r c Hr Hc. specialize (Hf5 r c Hr Hc).
  unfold fixedAt, isEmptyAt, valueAt in *. rewrite cellAt_markFilledFixed.
  destruct (cellAt g5 r c) as [[[v|] f]|]; simpl in *; congruence.
Qed.

(** ** The second generator, when its solve step has filled the grid *)

Lemma tryColours_true_full check rec row col nums : forall g g',
  (forall g1 g2, rec g1 = Some (true, g2) -> full g2) ->
  tryColours check rec row col nums g = Some (true, g') -> full g'.
Proof.
  induction nums as [|num rest IH]; intros g g' Hrec; simpl; [done|].
  destruct (check g row col num); [|by apply IH].
  destruct (rec (setValue g row col (Some num))) as [[[] g1]|] eqn:E; [|by apply IH|done].
  intros [= <-]. by eapply Hrec.
Qed.

Lemma solveOne_true_full check fuel : forall g g',
  solveOne check fuel g = Some (true, g') -> full g'.
Proof.
  induction fuel as [|fuel IH]; intros g g'; [done|].
  rewrite solveOne_S. destruct (findEmptyCell g) as [[row col]|] eqn:Hfind.
  - apply tryColours_true_full. apply IH.
  - intros [= <-]. by apply findEmptyCell_None.
Qed.

(** Writing back the value just read leaves the grid as it was. *)
Lemma setValue_restore g r c :
  shape9 g -> r < 9 -> c < 9 ->
  setValue (setValue g r c None) r c (valueAt g r c) = g.
Proof.
  intros Hg Hr Hc.
  apply grid_ext_fields; [by do 2 apply shape9_setValue|done|].
  intros r' c' Hr' Hc'. rewrite !fixedAt_setValue. split; [|done].
  destruct (decide ((r', c') = (r, c))) as [[= -> ->]|Hne].
  - rewrite valueAt_setValue_eq; [done|by apply shape9_setValue|done..].
  - by rewrite !valueAt_setValue_ne.
Qed.

Lemma removeCellsB_emptyCount positions : forall g g',
  shape9 g -> Forall (fun p : nat * nat => p.1 < 9 /\ p.2 < 9) positions ->
  GameLogicB.removeCells positions g = Some g' ->
  emptyCount g' <= emptyCount g + length positions.
Proof.
  induction positions as [|[row col] rest IH]; intros g g' Hg Hpos.
  - intros [= <-]. simpl. lia.
  - apply Forall_cons in Hpos as [[Hr Hc] Hrest]. cbn [GameLogicB.removeCells].
    destruct (GameLogicB.hasUniqueSolution (setValue g row col None)) as [[]|]; [| |done].
    + intros Hrun. apply IH in Hrun; [|by apply shape9_setValue|done].
      pose proof (emptyCount_clear g row col). simpl. lia.
    + rewrite setValue_restore by done. intros Hrun. apply IH in Hrun; [|done..].
      simpl. lia.
Qed.

Lemma emptyCount_markFilledFixed g :
  emptyCount (GameLogicB.markFilledFixed g) = emptyCount g.
Proof.
  unfold emptyCount, emptyCells. f_equal. apply filter_ext. intros [r c].
  cbn [fst snd]. unfold isEmptyAt, valueAt. rewrite cellAt_markFilledFixed.
  destruct (cellAt g r c) as [[[v|] f]|]; reflexivity.
Qed.

Lemma shuffled_positions_in_range rnd k positions k' :
  shuffle rnd ((fun i => (i / 9, i mod 9)) <$> seq 0 81) k = (positions, k') ->
  Forall (fun p : nat * nat => p.1 < 9 /\ p.2 < 9) positions.
Proof.
  intros Hshuffle. apply Forall_forall. intros p Hin.
  apply (shuffle_elem_of _ _ _ _ _ _ Hshuffle), list_elem_of_fmap in Hin as (i & -> & Hi).
  apply elem_of_seq in Hi. cbn [fst snd]. split; dlia.
Qed.

(** The grid after [fillBox]. *)
Lemma foldl_setValue_other (target : nat -> nat * nat) (numbers : list nat) idxs :
  forall g r c,
  (forall i, i ∈ idxs -> target i <> (r, c)) ->
  valueAt (foldl (fun g i => setValue g (target i).1 (target i).2 (numbers !! i)) g idxs) r c
  = valueAt g r c.
Proof.
  induction idxs as [|i rest IH]; intros g r c Hother; [done|].
  cbn [foldl]. rewrite IH by (intros j Hj; apply Hother; by right).
  apply valueAt_setValue_ne. intros Heq. apply (Hother i); [by left|].
  by destruct (target i).
Qed.

Lemma foldl_setValue_at (target : nat -> nat * nat) (numbers : list nat) idxs :
  forall g i r c,
  shape9 g -> r < 9 -> c < 9 -> NoDup idxs -> i ∈ idxs -> target i = (r, c) ->
  (forall j, j ∈ idxs -> target j = (r, c) -> j = i) ->
  valueAt (foldl (fun g i => setValue g (target i).1 (target i).2 (numbers !! i)) g idxs) r c
  = numbers !! i.
Proof.
  induction idxs as [|j rest IH]; intros g i r c Hg Hr Hc Hnd Hin Ht Hinj.
  - by apply not_elem_of_nil in Hin.
  - apply NoDup_cons in Hnd as [Hj Hnd]. cbn [foldl].
    apply elem_of_cons in Hin as [->|Hin].
    + rewrite foldl_setValue_other.
      * rewrite Ht. cbn [fst snd]. by apply valueAt_setValue_eq.
      * intros j' Hj' Heq. apply Hj. rewrite <- (Hinj j'); [done|by right|done].
    + apply IH; [by apply shape9_setValue|done..|].
      intros j' Hj'. apply Hinj. by right.
Qed.

Lemma fillBox_value rnd g sr sc k r c :
  shape9 g -> sr + 3 <= 9 -> sc + 3 <= 9 -> r < 9 -> c < 9 ->
  valueAt (GameLogicB.fillBox rnd g sr sc k).1 r c
  = if decide ((sr <= r < sr + 3) /\ (sc <= c < sc + 3))
    then (shuffle rnd (seq 0 9) k).1 !! (3 * (r - sr) + (c - sc))
    else valueAt g r c.
Proof.
  intros Hg Hsr Hsc Hr Hc. unfold GameLogicB.fillBox.
  destruct (shuffle rnd (seq 0 9) k) as [numbers k']. cbn [fst].
  change (foldl _ g (seq 0 9))
    with (foldl (fun g i => setValue g ((fun i => (sr + i / 3, sc + i mod 3)) i).1
                                       ((fun i => (sr + i / 3, sc + i mod 3)) i).2
                                       (numbers !! i)) g (seq 0 9)).
  case_decide as Hbox.
  - apply foldl_setValue_at; [done..|apply NoDup_seq| | |].
    + apply elem_of_seq. lia.
    + apply pair_equal_spec. dlia.
    + intros j Hj. apply elem_of_seq in Hj. rewrite pair_equal_spec. dlia.
  - apply foldl_setValue_other. intros i Hi. apply elem_of_seq in Hi.
    rewrite pair_equal_spec. dlia.
Qed.

Lemma shuffled_numbers rnd k :
  NoDup (shuffle rnd (seq 0 9) k).1
  /\ forall i v, (shuffle rnd (seq 0 9) k).1 !! i = Some v -> v < 9.
Proof.
  pose proof (shuffle_Permutation rnd (seq 0 9) k) as Hp. split.
  - rewrite Hp. apply NoDup_seq.
  - intros i v Hv. apply list_elem_of_lookup_2 in Hv. rewrite Hp in Hv.
    apply elem_of_seq in Hv. lia.
Qed.

Lemma fillBox_diagonalOnly rnd g b k :
  shape9 g -> b < 3 -> diagonalOnly g ->
  (forall r c, r < 9 -> c < 9 -> r / 3 = b -> c / 3 = b -> valueAt g r c = None) ->
  diagonalOnly (GameLogicB.fillBox rnd g (3 * b) (3 * b) k).1.
Proof.
  intros Hg Hb [Hdiag Hinj] Hfree.
  destruct (shuffled_numbers rnd k) as [Hnd Hlt]. split.
  - intros r c v Hr Hc. rewrite fillBox_value by (done || lia).
    case_decide as Hbox.
    + intros Hv. split; [dlia|by eapply Hlt].
    + by apply Hdiag.
  - intros r c r' c' v Hr Hc Hr' Hc' Hbr Hbc.
    rewrite !fillBox_value by (done || lia).
    repeat case_decide.
    + intros H1 H2. pose proof (NoDup_lookup _ _ _ _ Hnd H1 H2). dlia.
    + exfalso. dlia.
    + exfalso. dlia.
    + by apply Hinj.
Qed.

Lemma diagonalOnly_noConflict g : diagonalOnly g -> coloursOk g /\ noConflict g.
Proof.
  intros [Hdiag Hinj]. split.
  - intros r c v Hr Hc Hv. by destruct (Hdiag r c v Hr Hc Hv).
  - intros r c r' c' v Hr Hc Hr' Hc' [Hne Hshare] Hv Hv'.
    destruct (Hdiag r c v Hr Hc Hv) as [Hd _].
    destruct (Hdiag r' c' v Hr' Hc' Hv') as [Hd' _].
    apply Hne. apply pair_equal_spec.
    apply (Hinj r c r' c' v); try done; unfold sameBox in Hshare; dlia.
Qed.

(** [findSolutions] collects completions until it holds two. *)
Section FindLoop.
Variables (g : Grid) (row col : nat)
          (rec : Grid -> list Grid -> option (list Grid * Grid)).
Hypothesis Hshape : shape9 g.
Hypothesis Hrow : row < 9.
Hypothesis Hcol : col < 9.
Hypothesis Hempty : valueAt g row col = None.
Hypothesis Hrec : forall v sols,
    v < 9 -> GameLogicB.checkPlacement g row col v = true -> length sols <= 1 ->
    exists sols',
      rec (setValue g row col (Some v)) sols = Some (sols', setValue g row col (Some v))
      /\ length sols'
         = Nat.min (length sols + length (completionsOf (setValue g row col (Some v)))) 2.

Lemma findLoop_counts nums sols :
  Forall (fun v => v < 9) nums -> length sols <= 1 ->
  exists sols',
    GameLogicB.findLoop rec row col nums g sols = Some (sols', g)
    /\ length sols' = Nat.min (length sols + length (completionsVia g row col nums)) 2.
Proof using Hshape Hrow Hcol Hempty Hrec.
  intros Hnums. revert sols.
  induction Hnums as [|num rest Hnum Hnums IH]; intros sols Hlen.
  - exists sols. split; [done|]. simpl. lia.
  - unfold completionsVia. rewrite bind_cons, length_app.
    fold (completionsVia g row col rest). cbn [GameLogicB.findLoop].
    destruct (GameLogicB.checkPlacement g row col num) eqn:Hvalid.
    + destruct (Hrec num sols Hnum Hvalid Hlen) as (sols1 & -> & Hlen1).
      rewrite setValue_undo by done.
      destruct (Nat.ltb_spec 1 (length sols1)) as [Hstop|Hgo].
      * exists sols1. split; [done|]. lia.
      * destruct (IH sols1 Hgo) as (sols2 & -> & Hlen2).
        exists sols2. split; [done|]. lia.
    + assert (completionsOf (setValue g row col (Some num)) = []) as ->.
      { apply checkPlacementB_false in Hvalid; [|done..].
        destruct (completionsOf _) as [|s l] eqn:E; [done|]. exfalso.
        apply (conflict_no_completion g row col num s Hshape Hrow Hcol Hvalid).
        apply elem_of_completionsOf; [by apply shape9_setValue|]. rewrite E. by left. }
      simpl. by apply IH.
Qed.
End FindLoop.

Lemma findSolutions_counts fuel : forall g sols,
  shape9 g -> coloursOk g -> noConflict g -> emptyCount g < fuel -> length sols <= 1 ->
  exists sols',
    GameLogicB.findSolutions fuel g sols = Some (sols', g)
    /\ length sols' = Nat.min (length sols + length (completionsOf g)) 2.
Proof.
  induction fuel as [|fuel IH]; intros g sols Hg Hcol Hnc Hfuel Hlen; [lia|].
  rewrite findSolutions_S. destruct (findEmptyCell g) as [[row col]|] eqn:Hfind.
  - pose proof (emptyCount_fill g row col) as Hcount.
    apply findEmptyCell_Some in Hfind as Hcell. destruct Hcell as (Hr & Hc & Hv & _).
    rewrite (completionsOf_split g row col) by done.
    apply (findLoop_counts g row col); [done..| | |done].
    + intros v sols1 Hv9 Hvalid Hlen1.
      apply IH; [by apply shape9_setValue|by apply coloursOk_setValue| |..|done].
      * apply noConflict_setValue; [done..|]. by apply checkPlacementB_true.
      * specialize (Hcount v Hg Hfind). lia.
    + apply Forall_forall. intros v Hin. apply elem_of_seq in Hin. lia.
  - apply findEmptyCell_None in Hfind. rewrite completionsOf_full by done.
    assert (solvedb g = true) as -> by (by apply solvedb_true, satisfies_iff).
    exists (sols ++ [g]). split; [done|]. rewrite length_app. simpl. lia.
Qed.

Lemma hasUniqueSolution_counts g :
  shape9 g -> coloursOk g -> noConflict g ->
  GameLogicB.hasUniqueSolution g = Some (length (completionsOf g) =? 1).
Proof.
  intros Hg Hcol Hnc. unfold GameLogicB.hasUniqueSolution.
  destruct (findSolutions_counts searchDepth g [] Hg Hcol Hnc (searchDepth_enough g))
    as (sols & -> & Hlen); [simpl; lia|].
  f_equal. simpl in Hlen. rewrite Hlen.
  destruct (length (completionsOf g)) as [|[|n]]; done.
Qed.

Lemma removeCellsB_unique positions : forall g g',
  uniqueGrid g -> Forall (fun p : nat * nat => p.1 < 9 /\ p.2 < 9) positions ->
  GameLogicB.removeCells positions g = Some g' -> uniqueGrid g'.
Proof.
  induction positions as [|[row col] rest IH]; intros g g' Hu Hpos.
  - by intros [= <-].
  - apply Forall_cons in Hpos as [[Hr Hc] Hrest]. cbn [GameLogicB.removeCells].
    destruct Hu as [Hg Hcol Hnc Huniq].
    rewrite hasUniqueSolution_counts;
      [|by apply shape9_setValue|by apply coloursOk_clear|by apply noConflict_clear].
    destruct (Nat.eqb_spec (length (completionsOf (setValue g row col None))) 1) as [H1|H1].
    + apply IH; [|done]. split; [by apply shape9_setValue|by apply coloursOk_clear| |done].
      by apply noConflict_clear.
    + rewrite setValue_restore by done. by apply IH.
Qed.

(** Completions do not depend on the flags. *)
Lemma completion_withFlags g g' s :
  shape9 g' ->
  (forall r c, r < 9 -> c < 9 -> valueAt g' r c = valueAt g r c) ->
  completion g s -> completion g' (withFlags g' s).
Proof.
  intros Hg' Hsame (Hs & Hext & Hsat).
  split; [by apply shape9_withFlags|]. split.
  - intros r c Hr Hc. unfold fixedAt at 1, valueAt at 2.
    rewrite cellAt_withFlags by done. simpl. split; [done|].
    intros v. rewrite Hsame by done. by apply Hext.
  - apply (satisfies_same_values s); [|done]. intros r c Hr Hc.
    unfold valueAt at 1. by rewrite cellAt_withFlags.
Qed.

Lemma length_one_unique g :
  shape9 g ->
  (length (completionsOf g) = 1
   <-> exists s, completion g s /\ forall s', completion g s' -> s' = s).
Proof.
  intros Hg. split.
  - intros Hlen. destruct (completionsOf g) as [|s [|s2 l]] eqn:E; try done.
    exists s. split.
    + apply elem_of_completionsOf; [done|]. rewrite E. by left.
    + intros s' Hs'. apply elem_of_completionsOf in Hs'; [|done]. rewrite E in Hs'.
      by apply list_elem_of_singleton in Hs'.
  - intros (s & Hs & Huniq).
    change 1 with (length [s]). apply Permutation_length, NoDup_Permutation.
    + by apply NoDup_completionsOf.
    + apply NoDup_singleton.
    + intros t. rewrite elem_of_completionsOf, list_elem_of_singleton by done.
      split; [by apply Huniq|by intros ->].
Qed.

Lemma unique_same_values g g' :
  shape9 g -> shape9 g' ->
  (forall r c, r < 9 -> c < 9 -> valueAt g' r c = valueAt g r c) ->
  length (completionsOf g) = 1 -> length (completionsOf g') = 1.
Proof.
  intros Hg Hg' Hsame Hlen. apply length_one_unique in Hlen as (s & Hs & Huniq); [|done].
  apply length_one_unique; [done|]. exists (withFlags g' s). split.
  - by apply (completion_withFlags g).
  - intros t Ht. pose proof Ht as (Hts & Htext & _).
    assert (withFlags g t = s) as Hback.
    { apply Huniq, (completion_withFlags g'); [done| |done].
      intros r c Hr Hc. symmetry. by apply Hsame. }
    apply grid_ext_fields; [done|by apply shape9_withFlags; [|apply Hs]|].
    intros r c Hr Hc. unfold valueAt at 2, fixedAt at 2.
    rewrite cellAt_withFlags by (done || apply Hs). simpl. split.
    + rewrite <- Hback. unfold valueAt at 2. by rewrite cellAt_withFlags.
    + by apply Htext.
Qed.

Lemma diagonalOnly_createEmptyGrid : diagonalOnly createEmptyGrid.
Proof.
  split.
  - intros r c v Hr Hc. unfold valueAt. by rewrite cellAt_createEmptyGrid.
  - intros r c r' c' v Hr Hc _ _ _ _. unfold valueAt. by rewrite cellAt_createEmptyGrid.
Qed.

Lemma valueAt_markFilledFixed g r c :
  valueAt (GameLogicB.markFilledFixed g) r c = valueAt g r c.
Proof.
  unfold valueAt. rewrite cellAt_markFilledFixed.
  by destruct (cellAt g r c) as [[[v|] f]|].
Qed.

(** The three diagonal boxes, filled one after the other, never conflict. *)
Lemma diagonal_boxes_noConflict rnd g1 k1 g2 k2 g3 k3 :
  GameLogicB.fillBox rnd createEmptyGrid 0 0 0 = (g1, k1) ->
  GameLogicB.fillBox rnd g1 3 3 k1 = (g2, k2) ->
  GameLogicB.fillBox rnd g2 6 6 k2 = (g3, k3) ->
  shape9 g3 /\ allUnfixed g3 /\ coloursOk g3 /\ noConflict g3.
Proof.
  intros H1 H2 H3.
  pose proof (fillBox_shape rnd createEmptyGrid 0 0 0
                shape9_createEmptyGrid allUnfixed_createEmptyGrid) as [Hs1 Hf1].
  pose proof (fillBox_diagonalOnly rnd createEmptyGrid 0 0 shape9_createEmptyGrid
                ltac:(lia) diagonalOnly_createEmptyGrid) as Hd1.
  change (3 * 0) with 0 in Hd1. rewrite H1 in Hs1, Hf1, Hd1. cbn [fst] in *.
  assert (diagonalOnly g1) as Hdiag1.
  { apply Hd1. intros r c Hr Hc _ _. unfold valueAt. by rewrite cellAt_createEmptyGrid. }
  assert (forall r c, r < 9 -> c < 9 -> 3 <= r -> 3 <= c -> valueAt g1 r c = None) as Hfree1.
  { intros r c Hr Hc Hr3 Hc3. replace g1 with (GameLogicB.fillBox rnd createEmptyGrid 0 0 0).1
      by (by rewrite H1).
    rewrite fillBox_value by (done || lia || apply shape9_createEmptyGrid).
    case_decide; [lia|]. unfold valueAt. by rewrite cellAt_createEmptyGrid. }
  pose proof (fillBox_shape rnd g1 3 3 k1 Hs1 Hf1) as [Hs2 Hf2].
  pose proof (fillBox_diagonalOnly rnd g1 1 k1 Hs1 ltac:(lia) Hdiag1) as Hd2.
  change (3 * 1) with 3 in Hd2. rewrite H2 in Hs2, Hf2, Hd2. cbn [fst] in *.
  assert (diagonalOnly g2) as Hdiag2.
  { apply Hd2. intros r c Hr Hc Hbr Hbc. apply Hfree1; [done..|dlia|dlia]. }
  assert (forall r c, r < 9 -> c < 9 -> 6 <= r -> 6 <= c -> valueAt g2 r c = None) as Hfree2.
  { intros r c Hr Hc Hr6 Hc6. replace g2 with (GameLogicB.fillBox rnd g1 3 3 k1).1
      by (by rewrite H2).
    rewrite fillBox_value by (done || lia).
    case_decide; [lia|]. apply Hfree1; lia. }
  pose proof (fillBox_shape rnd g2 6 6 k2 Hs2 Hf2) as [Hs3 Hf3].
  pose proof (fillBox_diagonalOnly rnd g2 2 k2 Hs2 ltac:(lia) Hdiag2) as Hd3.
  change (3 * 2) with 6 in Hd3. rewrite H3 in Hs3, Hf3, Hd3. cbn [fst] in *.
  assert (diagonalOnly g3) as Hdiag3.
  { apply Hd3. intros r c Hr Hc Hbr Hbc. apply Hfree2; [done..|dlia|dlia]. }
  destruct (diagonalOnly_noConflict g3 Hdiag3). done.
Qed.

(** The solve step of the second generator answers [true] exactly when the
    three diagonal boxes it was given can be completed. *)
Lemma fillAndSolve_outcome rnd :
  exists b g4 k,
    GameLogicB.fillAndSolve rnd = Some (b, g4, k)
    /\ shape9 g4 /\ allUnfixed g4
    /\ (b = true -> satisfiesConstraints g4).
Proof.
  unfold GameLogicB.fillAndSolve.
  destruct (GameLogicB.fillBox rnd createEmptyGrid 0 0 0) as [g1 k1] eqn:H1.
  destruct (GameLogicB.fillBox rnd g1 3 3 k1) as [g2 k2] eqn:H2.
  destruct (GameLogicB.fillBox rnd g2 6 6 k2) as [g3 k3] eqn:H3.
  destruct (diagonal_boxes_noConflict rnd _ _ _ _ _ _ H1 H2 H3) as (Hs3 & Hf3 & Hcol3 & Hnc3).
  unfold GameLogicB.solveGrid.
  destruct (solveOne_outcome GameLogicB.checkPlacement searchDepth checkPlacementB_false
              g3 Hs3 Hcol3 Hnc3 (searchDepth_enough g3)) as (b & g4 & Hrun & _ & Htrue).
  rewrite Hrun. exists b, g4, k3. split; [done|].
  apply solveOne_keeps in Hrun as (_ & Hs4 & Hext); [|done].
  split; [done|]. split.
  - intros r c Hr Hc. destruct (Hext r c Hr Hc) as [-> _]. by apply Hf3.
  - intros ->. by destruct (Htrue eq_refl) as (_ & _ & Hsat).
Qed.

(** Whenever its solve step has filled the grid, the generator of the second
    game-logic file returns a puzzle with at most the target number of empty
    cells and exactly one completion. *)
Theorem generatePuzzleB_when_filled rnd d :
  exists b g4 k g,
    GameLogicB.fillAndSolve rnd = Some (b, g4, k)
    /\ GameLogicB.generatePuzzle rnd d = Some g
    /\ shape9 g
    /\ emptyCount g <= emptyCount g4 + GameLogicB.cellsToRemove d
    /\ (b = true ->
        emptyCount g <= GameLogicB.cellsToRemove d
        /\ (exists s, completion g s /\ forall s', completion g s' -> s' = s)
        /\ GameLogicB.hasUniqueSolution g = Some true).
Proof.
  destruct (fillAndSolve_outcome rnd) as (b & g4 & k & Hrun & Hs4 & Hf4 & Hsat).
  exists b, g4, k. unfold GameLogicB.generatePuzzle. rewrite Hrun.
  destruct (shuffle rnd _ k) as [positions k'] eqn:Hshuffle.
  apply shuffled_positions_in_range in Hshuffle as Hpos.
  assert (Forall (fun p : nat * nat => p.1 < 9 /\ p.2 < 9)
                 (take (GameLogicB.cellsToRemove d) positions)) as Hpos'
    by (by apply Forall_take).
  destruct (removeCellsB_shape (take (GameLogicB.cellsToRemove d) positions) g4 Hs4 Hf4)
    as (g5 & Hrem & Hs5 & Hf5).
  rewrite Hrem. exists (GameLogicB.markFilledFixed g5). split; [done|]. split; [done|].
  pose proof (shape9_markFilledFixed g5 Hs5) as Hs6.
  pose proof (removeCellsB_emptyCount _ _ _ Hs4 Hpos' Hrem) as Hcount.
  rewrite length_take in Hcount. rewrite emptyCount_markFilledFixed.
  split; [done|]. split; [lia|]. intros Hb. specialize (Hsat Hb).
  apply satisfies_iff in Hsat as Hparts. destruct Hparts as (Hfull & Hcol4 & Hnc4).
  assert (uniqueGrid g4) as Hu4.
  { split; [done..|]. rewrite completionsOf_full by done.
    by assert (solvedb g4 = true) as -> by (by apply solvedb_true). }
  pose proof (removeCellsB_unique _ _ _ Hu4 Hpos' Hrem) as [_ Hcol5 Hnc5 Huniq5].
  assert (length (completionsOf (GameLogicB.markFilledFixed g5)) = 1) as Huniq6.
  { apply (unique_same_values g5); [done..| |done].
    intros r c _ _. apply valueAt_markFilledFixed. }
  split; [rewrite (emptyCount_full g4 Hfull) in Hcount; lia|]. split.
  - by apply length_one_unique.
  - rewrite hasUniqueSolution_counts, Huniq6; [done|done|..].
    + intros r c v Hr Hc. rewrite valueAt_markFilledFixed. by apply Hcol5.
    + intros r c r' c' v Hr Hc Hr' Hc' Hp. rewrite !valueAt_markFilledFixed. by apply Hnc5.
Qed.

(** ** Sample grids *)

Lemma shape9_compute g :
  bool_decide (length g = 9) && forallb (fun r : list Cell => length r =? 9) g = true ->
  shape9 g.
Proof.
  rewrite andb_true_iff, forallb_forall. intros [Hlen Hrows]. split.
  - by apply bool_decide_eq_true_1 in Hlen.
  - apply Forall_forall. intros r Hin. apply list_elem_of_In in Hin.
    by apply Nat.eqb_eq, Hrows.
Qed.

Lemma full_compute g :
  forallb (fun p => negb (isEmptyAt g p.1 p.2)) rowMajor = true -> full g.
Proof.
  intros H r c Hr Hc Hv. apply (forall_cells (fun r c => negb (isEmptyAt g r c))) with r c in H;
    [|done..]. unfold isEmptyAt in H. by rewrite Hv in H.
Qed.

Lemma cellInvariant_compute g :
  forallb (fun p => implb (fixedAt g p.1 p.2) (negb (isEmptyAt g p.1 p.2))) rowMajor = true ->
  cellInvariant g.
Proof.
  intros H r c Hr Hc Hfix Hv.
  apply (forall_cells (fun r c => implb (fixedAt g r c) (negb (isEmptyAt g r c))))
    with r c in H; [|done..].
  unfold isEmptyAt in H. by rewrite Hfix, Hv in H.
Qed.

Lemma samplePuzzle_ok : shape9 samplePuzzle /\ cellInvariant samplePuzzle.
Proof. split; [by apply shape9_compute|by apply cellInvariant_compute]. Qed.

Lemma oneMissingGrid_ok :
  shape9 oneMissingGrid /\ coloursOk oneMissingGrid /\ noConflict oneMissingGrid.
Proof.
  destruct shiftedSolution_completes as (Hs & _ & Hsat).
  apply satisfies_iff in Hsat as (_ & Hcol & Hnc).
  split; [by apply shape9_setValue|]. split.
  - by apply coloursOk_clear.
  - by apply noConflict_clear.
Qed.

(* ===================================================================== *)
(** * Part IV: the properties of the specification                       *)
(* ===================================================================== *)

(** For every difficulty and every outcome of the random source,
    [generatePuzzle] of lib/game-logic.ts returns a grid that has exactly one
    completion satisfying the row, column and box constraints, and the
    solution counter run with limit 2 on that grid yields exactly 1. *)
Theorem generatePuzzle_unique_solution (rnd : RandomSource) (d : Difficulty) :
  exists g,
    GameLogic.generatePuzzle rnd d = Some g
    /\ (exists s, completion g s /\ forall s', completion g s' -> s' = s)
    /\ GameLogic.countSolutions searchDepth g 2 = Some (1%Z, g).
Proof.
  destruct (generatePuzzle_invariant rnd d) as (g & Hrun & Hinv & _).
  destruct Hinv as [Hg Hcol Hnc _ Huniq]. exists g. split; [done|]. split.
  - destruct (completionsOf g) as [|s [|s2 l]] eqn:E; try done.
    exists s. split.
    + apply elem_of_completionsOf; [done|]. rewrite E. by left.
    + intros s' Hs'. apply elem_of_completionsOf in Hs'; [|done]. rewrite E in Hs'.
      by apply list_elem_of_singleton in Hs'.
  - rewrite (countSolutions_counts searchDepth g 2 Hg Hcol Hnc (searchDepth_enough g))
      by lia. by rewrite Huniq.
Qed.

(** C2.  [checkWin] of the second game-logic file returns true on a grid
    that is filled but violates the constraints (every cell holds colour 0);
    [checkWin] of lib/game-logic.ts returns false there. *)
Theorem checkWinB_accepts_filled_invalid_grid :
  GameLogicB.checkWin allZeroGrid = true
  /\ full allZeroGrid
  /\ ~ satisfiesConstraints allZeroGrid
  /\ GameLogic.checkWin allZeroGrid = false.
Proof.
  split; [by vm_compute|]. split; [by apply full_compute|]. split; [|by vm_compute].
  intros Hsat. apply solvedb_true in Hsat. by vm_compute in Hsat.
Qed.

(** C3.  For every 9 x 9 grid, every row and column in 0..8 and every value,
    [checkPlacement] (of either game-logic file) returns false if and only if
    some cell other than [(row, col)] that shares its row, its column or its
    3 x 3 box holds the value; the cell itself is not compared. *)
Theorem checkPlacement_false_iff_conflict (g : Grid) (row col v : nat) :
  shape9 g -> row < 9 -> col < 9 ->
  (GameLogic.checkPlacement g row col v = false <-> conflictAt g row col v)
  /\ (GameLogicB.checkPlacement g row col v = false <-> conflictAt g row col v).
Proof.
  intros _ Hr Hc. split; [by apply checkPlacement_false|by apply checkPlacementB_false].
Qed.

(** The scenario of the specification: with colour 2 at (0,0) and (0,1),
    placing 2 at (0,1) is refused because of the cell at (0,0). *)
Lemma checkPlacement_false_iff_conflict_witness :
  shape9 twoTwosGrid /\ 0 < 9 /\ 1 < 9
  /\ (GameLogic.checkPlacement twoTwosGrid 0 1 2 = false <-> conflictAt twoTwosGrid 0 1 2)
  /\ (GameLogicB.checkPlacement twoTwosGrid 0 1 2 = false <-> conflictAt twoTwosGrid 0 1 2).
Proof.
  assert (shape9 twoTwosGrid) as Hg by (by apply shape9_compute).
  assert (0 < 9) as H0 by lia. assert (1 < 9) as H1 by lia.
  split; [exact Hg|]. split; [exact H0|]. split; [exact H1|].
  exact (checkPlacement_false_iff_conflict twoTwosGrid 0 1 2 Hg H0 H1).
Defined.

(** C4, as stated, fails: on the full grid that holds colour 0 everywhere there
    is no completion, and the counting solver returns 1, not min(0, 2). *)
Lemma countSolutions_counts_conflicting_grid :
  shape9 allZeroGrid /\ (1 <= 2)%Z /\ ~ countsCompletions allZeroGrid 2.
Proof.
  assert (shape9 allZeroGrid) as Hg by (by apply shape9_compute).
  split; [done|]. split; [lia|]. intros Hclaim.
  specialize (Hclaim _ (numCompletions_completionsOf allZeroGrid Hg)).
  by vm_compute in Hclaim.
Qed.

(** C4, amended.  For every 9 x 9 grid and every limit >= 1 the counting
    solver returns a count between 0 and the limit and leaves the grid as it
    was; when the filled cells hold colours 0..8 and no colour occurs twice in
    a row, a column or a box, the count is the minimum of the number of
    distinct completions of the grid and the limit. *)
Theorem countSolutions_min_completions_limit (g : Grid) (limit : Z) :
  shape9 g -> (1 <= limit)%Z ->
  (exists m, GameLogic.countSolutions searchDepth g limit = Some (m, g)
             /\ (0 <= m <= limit)%Z)
  /\ (coloursOk g -> noConflict g -> countsCompletions g limit).
Proof.
  intros Hg Hlimit. split.
  - by apply countSolutions_bound; [|apply searchDepth_enough|].
  - intros Hcol Hnc n Hn. rewrite (numCompletions_unique g n Hg Hn).
    by apply countSolutions_counts; [..|apply searchDepth_enough|].
Qed.

(** A solved grid with one cell cleared has one completion, and the counting
    solver says so. *)
Lemma countSolutions_min_completions_limit_witness :
  shape9 oneMissingGrid /\ (1 <= 2)%Z
  /\ GameLogic.countSolutions searchDepth oneMissingGrid 2 = Some (1%Z, oneMissingGrid).
Proof.
  destruct oneMissingGrid_ok as (Hg & Hcol & Hnc).
  assert (1 <= 2)%Z as Hl by lia.
  split; [exact Hg|]. split; [exact Hl|].
  destruct (countSolutions_min_completions_limit oneMissingGrid 2 Hg Hl) as [_ Hmin].
  assert (numCompletions oneMissingGrid 1) as Hn.
  { replace 1 with (length (completionsOf oneMissingGrid)) by (by vm_compute).
    by apply numCompletions_completionsOf. }
  exact (Hmin Hcol Hnc 1 Hn).
Defined.

(** C5.  On every 9 x 9 grid: a call of [countSolutions] returns and leaves the
    grid exactly as it was before the call; a call of [generateSolution], of
    [solveGrid] (second game-logic file) or of the component's [solveGrid]
    returns, and when it returns false the grid is exactly as it was. *)
Theorem searches_undo_their_assignments (g : Grid) :
  shape9 g ->
  (forall limit, exists n, GameLogic.countSolutions searchDepth g limit = Some (n, g))
  /\ (forall rnd k, exists b g' k',
         GameLogic.generateSolution rnd searchDepth g k = Some (b, g', k')
         /\ (b = false -> g' = g))
  /\ (exists b g', GameLogicB.solveGrid searchDepth g = Some (b, g')
                   /\ (b = false -> g' = g))
  /\ (exists b g', solveOne GameLogic.checkPlacement searchDepth g = Some (b, g')
                   /\ (b = false -> g' = g)).
Proof.
  intros Hg. pose proof (searchDepth_enough g) as Hfuel. split; [|split; [|split]].
  - intros limit. by apply countSolutions_restores.
  - intros rnd k. by apply generateSolution_restores.
  - by apply solveOne_restores.
  - by apply solveOne_restores.
Qed.

(** The same on the grid with colour 2 at (0,0) and (0,1). *)
Lemma searches_undo_their_assignments_witness :
  shape9 twoTwosGrid
  /\ exists b g', GameLogicB.solveGrid searchDepth twoTwosGrid = Some (b, g')
                  /\ (b = false -> g' = twoTwosGrid).
Proof.
  assert (shape9 twoTwosGrid) as Hg by (by apply shape9_compute).
  split; [exact Hg|].
  exact (proj1 (proj2 (proj2 (searches_undo_their_assignments twoTwosGrid Hg)))).
Defined.

(** For every difficulty and every outcome of the random source, the grid
    returned by [generatePuzzle] of lib/game-logic.ts has at most 40 (easy),
    50 (medium), 60 (hard) empty cells; its empty cells are exactly its
    non-fixed cells. *)
Theorem generatePuzzle_removes_at_most_target (rnd : RandomSource) (d : Difficulty) :
  exists g,
    GameLogic.generatePuzzle rnd d = Some g
    /\ emptyCount g <= match d with easy => 40 | medium => 50 | hard => 60 end
    /\ (forall r c, r < 9 -> c < 9 -> fixedAt g r c = negb (isEmptyAt g r c))
    /\ fixedCount g + emptyCount g = 81.
Proof.
  destruct (generatePuzzle_invariant rnd d) as (g & Hrun & Hinv & Hcount).
  exists g. split; [done|]. split; [by destruct d|].
  split; [apply Hinv|]. apply fixed_plus_empty, Hinv.
Qed.

(** C7.  [generatePuzzle("easy")] of the second game-logic file does not
    always return 41 fixed and 40 empty cells: with the random source whose
    [n]-th draw is [n] it returns a grid with 33 empty cells and 48 fixed
    cells.  Its removal loop tries the first 40 shuffled positions only, and 7
    of those removals are put back.  On the same random source
    [generatePuzzle("easy")] of lib/game-logic.ts, whose loop walks all 81
    positions, returns 40 empty and 41 fixed cells. *)
Theorem generatePuzzleB_easy_not_forty :
  GameLogicB.generatePuzzle (fun n => n) easy = easyPuzzleB
  /\ emptyCount <$> easyPuzzleB = Some 33
  /\ fixedCount <$> easyPuzzleB = Some 48
  /\ 33 <> 40 /\ 48 <> 41
  /\ GameLogic.generatePuzzle (fun n => n) easy = easyPuzzleSame
  /\ emptyCount <$> easyPuzzleSame = Some 40
  /\ fixedCount <$> easyPuzzleSame = Some 41.
Proof.
  split; [by vm_compute|]. split; [by vm_compute|]. split; [by vm_compute|].
  split; [lia|]. split; [lia|]. split; [by vm_compute|]. split; by vm_compute.
Qed.

(** For every outcome of the random source, [generatePuzzle("easy")]
    of lib/game-logic.ts returns a grid with at most 40 empty cells, whose
    fixed cells are all the others (at least 41), and help-solve applied to
    that grid succeeds: it finds a completion that satisfies the constraints
    and shows it. *)
Theorem generatePuzzle_easy_at_most_forty_and_solvable (rnd : RandomSource) :
  exists g solved,
    GameLogic.generatePuzzle rnd easy = Some g
    /\ emptyCount g <= 40 /\ 41 <= fixedCount g /\ fixedCount g + emptyCount g = 81
    /\ solveOne GameLogic.checkPlacement searchDepth (fixFilled g) = Some (true, solved)
    /\ completion (fixFilled g) solved
    /\ forall cell colour done err,
         grid (handleSolve (mkState g cell colour done err)) = solved.
Proof.
  destruct (generatePuzzle_invariant rnd easy) as (g & Hrun & Hinv & Hcount).
  destruct (handleSolve_succeeds g Hinv) as (solved & Hsolve & Hcompl).
  pose proof (fixed_plus_empty g (inv_flags g Hinv)) as Hsum.
  exists g, solved. cbn [GameLogic.cellsToRemove] in Hcount.
  split; [exact Hrun|]. split; [exact Hcount|]. split; [lia|]. split; [exact Hsum|].
  split; [exact Hsolve|]. split; [exact Hcompl|].
  intros cell colour done err. unfold handleSolve. cbn [grid]. by rewrite Hsolve.
Qed.


(** C8.  Every grid returned by [generatePuzzle] (either game-logic file) is
    9 x 9 and satisfies the cell invariant: a cell with [isFixed = true] has a
    non-empty value.  So does the grid of [createEmptyGrid], and from a 9 x 9
    grid that satisfies the invariant every operation yields one that does:
    the searches of the core ([countSolutions], [generateSolution],
    [solveGrid]) and the operations of the component (a press on the canvas,
    a colour of the palette, help-solve, the error timer, a new game), in both
    copies of the component. *)
Theorem cell_invariant_holds_and_is_preserved :
  (forall rnd d, exists g,
      GameLogic.generatePuzzle rnd d = Some g /\ shape9 g /\ cellInvariant g)
  /\ (forall rnd d, exists g,
      GameLogicB.generatePuzzle rnd d = Some g /\ shape9 g /\ cellInvariant g)
  /\ cellInvariant createEmptyGrid
  /\ forall s, shape9 (grid s) -> cellInvariant (grid s) ->
       (forall limit, exists n g',
           GameLogic.countSolutions searchDepth (grid s) limit = Some (n, g')
           /\ shape9 g' /\ cellInvariant g')
       /\ (forall rnd k, exists b g' k',
           GameLogic.generateSolution rnd searchDepth (grid s) k = Some (b, g', k')
           /\ shape9 g' /\ cellInvariant g')
       /\ (exists b g',
           GameLogicB.solveGrid searchDepth (grid s) = Some (b, g')
           /\ shape9 g' /\ cellInvariant g')
       /\ (forall a, shape9 (grid (Component.step s a))
                     /\ cellInvariant (grid (Component.step s a)))
       /\ (forall a, shape9 (grid (ComponentEarlier.step s a))
                     /\ cellInvariant (grid (ComponentEarlier.step s a)))
       /\ (forall rnd d, shape9 (grid (startNewGame rnd d s))
                         /\ cellInvariant (grid (startNewGame rnd d s))).
Proof.
  split; [apply generatePuzzle_cellInvariant|]. split; [|split].
  - intros rnd d. destruct (generatePuzzleB_invariant rnd d) as (g & Hrun & Hs & Hflags).
    exists g. split; [done|]. split; [done|]. by apply flags_cellInvariant.
  - intros r c Hr Hc. unfold fixedAt. by rewrite cellAt_createEmptyGrid.
  - intros s Hg Hinv. pose proof (searchDepth_enough (grid s)) as Hfuel.
    split; [|split; [|split; [|split; [|split]]]].
    + intros limit. destruct (countSolutions_restores searchDepth (grid s) limit Hg Hfuel)
        as [n Hn]. by exists n, (grid s).
    + intros rnd k.
      destruct (generateSolution_restores rnd searchDepth (grid s) k Hg Hfuel)
        as (b & g' & k' & Hrun & _).
      exists b, g', k'. split; [done|].
      apply generateSolution_keeps in Hrun as (_ & Hs & Hext); [|done].
      split; [done|]. by apply (cellInvariant_extends (grid s)).
    + destruct (solveOne_restores GameLogicB.checkPlacement searchDepth (grid s) Hg Hfuel)
        as (b & g' & Hrun & _).
      exists b, g'. split; [done|].
      apply solveOne_keeps in Hrun as (_ & Hs & Hext); [|done].
      split; [done|]. by apply (cellInvariant_extends (grid s)).
    + intros a. destruct (step_frozen s a Hg Hinv) as (Hs & Hi & _). done.
    + intros a. destruct (earlier_step_frozen s a Hg Hinv) as (Hs & Hi & _). done.
    + intros rnd d. by apply startNewGame_cellInvariant.
Qed.

(** The same on a sample state: a palette colour, and help-solve. *)
Lemma cell_invariant_holds_and_is_preserved_witness :
  shape9 (grid sampleState) /\ cellInvariant (grid sampleState)
  /\ cellInvariant (grid (Component.step sampleState (Component.ColorSelect 3)))
  /\ cellInvariant (grid (ComponentEarlier.step sampleState ComponentEarlier.Solve)).
Proof.
  destruct samplePuzzle_ok as [Hg Hinv].
  destruct cell_invariant_holds_and_is_preserved as (_ & _ & _ & Hkept).
  destruct (Hkept sampleState Hg Hinv) as (_ & _ & _ & Hstep & Hearlier & _).
  split; [exact Hg|]. split; [exact Hinv|]. split.
  - exact (proj2 (Hstep (Component.ColorSelect 3))).
  - exact (proj2 (Hearlier ComponentEarlier.Solve)).
Defined.



(** C10.  On every 9 x 9 grid with no empty cell the counting solver returns 1
    whatever the limit, and [hasUniqueSolution] returns true: neither looks at
    a row, column or box constraint, so a full grid counts as one solution
    even when it violates them. *)
Theorem full_grid_counts_as_one_solution (g : Grid) (limit : Z) :
  shape9 g -> full g ->
  GameLogic.countSolutions searchDepth g limit = Some (1%Z, g)
  /\ GameLogicB.hasUniqueSolution g = Some true.
Proof.
  intros _ Hfull. split.
  - by apply countSolutions_full.
  - by apply hasUniqueSolution_full.
Qed.

(** The same on the grid that holds colour 0 everywhere, which violates the
    constraints. *)
Lemma full_grid_counts_as_one_solution_witness :
  shape9 allZeroGrid /\ full allZeroGrid /\ ~ satisfiesConstraints allZeroGrid
  /\ GameLogic.countSolutions searchDepth allZeroGrid 2 = Some (1%Z, allZeroGrid)
  /\ GameLogicB.hasUniqueSolution allZeroGrid = Some true.
Proof.
  assert (shape9 allZeroGrid) as Hg by (by apply shape9_compute).
  assert (full allZeroGrid) as Hfull by (by apply full_compute).
  split; [exact Hg|]. split; [exact Hfull|]. split.
  - intros Hsat. apply solvedb_true in Hsat. by vm_compute in Hsat.
  - exact (full_grid_counts_as_one_solution allZeroGrid 2 Hg Hfull).
Defined.
